(** * csim.c: a set-associative cache simulator with timestamp-based replacement

    The development embeds the cache model of [csim.c] (the globals, the
    functions [init_cache], [access_data] and the record dispatch of
    [replay_trace]) as executable Rocq definitions and proves the properties
    of the simulator's specification about them.

    Conventions of the embedding:
    - an [int] is a [Z] in the range [int_min .. int_max]; the result of an
      [int] operation is wrapped by [to_int] (two's complement, 32 bits);
    - a [mem_addr_t] (unsigned long long) is a [Z] in [0 .. 2^64); unsigned
      results are reduced by [to_addr];
    - a heap array is a list, read with the list lookup [l !! i]; a read or a
      write outside the array, and a shift by a count outside [0 .. 64), have
      no defined result in C and make the embedded function return [None];
    - the globals that [main] sets once from the command line ([s], [E], [b])
      form the record [geometry]; the globals that the simulation mutates
      ([S], [cache], [lru_count] and the three counters) form [state]. *)

From Stdlib Require Import ZArith Lia Ascii.
From stdpp Require Import base option list.

(** ** Machine integers *)

Section machine_integers.
Local Open Scope Z_scope.

Definition int_min : Z := - 2 ^ 31.
Definition int_max : Z := 2 ^ 31 - 1.

(** Wrap-around of a 32-bit signed [int]. *)
Definition to_int (z : Z) : Z := (z + 2 ^ 31) mod 2 ^ 32 - 2 ^ 31.

(** Wrap-around of a 64-bit unsigned [mem_addr_t] (also [size_t]). *)
Definition to_addr (z : Z) : Z := z mod 2 ^ 64.

Definition is_int (z : Z) : Prop := int_min <= z <= int_max.
Definition is_addr (z : Z) : Prop := 0 <= z < 2 ^ 64.

(** [x++] on an [int]. *)
Definition incr (x : Z) : Z := to_int (x + 1).

(** A shift count is defined for a 64-bit operand when it is in [0 .. 64). *)
Definition shift_ok (n : Z) : bool := (0 <=? n) && (n <? 64).
End machine_integers.

(** ** Data model *)

(** Globals set by the command line arguments. *)
Record geometry := mk_geometry {
  s : Z;   (* number of set (s) bits *)
  E : Z;   (* number of lines per set *)
  b : Z    (* number of block (b) bits *)
}.

(** [cache_line_t]: valid bit, tag and the LRU stamp. *)
Record cache_line_t := mk_line {
  valid : bool;
  tag : Z;
  lru : Z
}.

(** A set is a heap array of lines, the cache a heap array of sets. *)
Abbreviation cache_set_t := (list cache_line_t).
Abbreviation cache_t := (list cache_set_t).

(** The globals mutated by the simulation. [S_] is the global [S]. *)
Record state := mk_state {
  S_ : Z;
  cache : cache_t;
  lru_count : Z;
  hit_cnt : Z;
  miss_cnt : Z;
  evict_cnt : Z
}.

(** The globals as the program starts: every [int] is zero and [cache] is
    the null pointer (no set can be read through it). *)
Definition startup : state :=
  {| S_ := 0; cache := []; lru_count := 0;
     hit_cnt := 0; miss_cnt := 0; evict_cnt := 0 |}.

(** ** init_cache *)

(** Sizes of the two element types on an LP64 target; they only enter the
    byte counts handed to [malloc]. *)
Definition sizeof_cache_set_t : Z := 8.
Definition sizeof_cache_line_t : Z := 24.

(** The line written by the initialisation loop. *)
Definition empty_line : cache_line_t := {| valid := false; tag := 0; lru := 0 |}.

Section init.
(** Whether [malloc] grants a request of the given number of bytes is the
    environment's choice. *)
Variable malloc_ok : Z → bool.

(** [S = 1; for (i = 0; i < s; i++) S *= 2;] *)
Definition compute_S (g : geometry) : Z :=
  Nat.iter (Z.to_nat (s g)) (λ x, to_int (x * 2)) 1%Z.

(** [None] is the [exit(0)] taken when an allocation fails. The per-set
    allocation is requested only when the loop over the sets runs. *)
Definition init_cache (g : geometry) (st : state) : option state :=
  let S := compute_S g in
  if negb (malloc_ok (to_addr (sizeof_cache_set_t * to_addr S))) then None
  else if (0 <? S)%Z
            && negb (malloc_ok (to_addr (sizeof_cache_line_t * to_addr (E g))))
  then None
  else Some {| S_ := S;
               cache := replicate (Z.to_nat S)
                          (replicate (Z.to_nat (E g)) empty_line);
               lru_count := lru_count st;
               hit_cnt := hit_cnt st;
               miss_cnt := miss_cnt st;
               evict_cnt := evict_cnt st |}.
End init.

(** ** access_data *)

(** Lines 116-117: the tag and the set index of an address.
    [tag = addr >> (s+b); currSet = (addr - (tag << (s+b))) >> b;]
    where [currSet] is an [int]. *)
Definition decompose (g : geometry) (addr : Z) : option (Z * Z) :=
  let sb := to_int (s g + b g) in
  if negb (shift_ok sb) then None
  else
    let t := Z.shiftr addr sb in
    if negb (shift_ok (b g)) then None
    else
      let currSet :=
        to_int (Z.shiftr (to_addr (addr - to_addr (Z.shiftl t sb))) (b g)) in
      Some (t, currSet).

(** Reading line [i] of set [k] through the [cache] pointer. *)
Definition line_at (c : cache_t) (k : Z) (i : nat) : option cache_line_t :=
  if (k <? 0)%Z then None else c !! Z.to_nat k ≫= (.!! i).

(** Assignment to fields of line [i] of set [k]. *)
Definition update_line (c : cache_t) (k : Z) (i : nat)
    (f : cache_line_t → cache_line_t) : option cache_t :=
  _ ← line_at c k i; Some (alter (alter f i) (Z.to_nat k) c).

(** First loop: look for a valid line with the tag, from line [i], for [n]
    more iterations. *)
Fixpoint hit_loop (c : cache_t) (k t : Z) (i n : nat) : option (option nat) :=
  match n with
  | O => Some None
  | S n' =>
      ln ← line_at c k i;
      if (tag ln =? t)%Z && valid ln then Some (Some i)
      else hit_loop c k t (S i) n'
  end.

(** Second loop: look for a line that is not valid. *)
Fixpoint cold_loop (c : cache_t) (k : Z) (i n : nat) : option (option nat) :=
  match n with
  | O => Some None
  | S n' =>
      ln ← line_at c k i;
      if negb (valid ln) then Some (Some i)
      else cold_loop c k (S i) n'
  end.

(** Third loop: [line] moves to [i] when line [i] has a smaller stamp. *)
Fixpoint lru_loop (c : cache_t) (k : Z) (line i n : nat) : option nat :=
  match n with
  | O => Some line
  | S n' =>
      li ← line_at c k i;
      ll ← line_at c k line;
      lru_loop c k (if (lru li <? lru ll)%Z then i else line) (S i) n'
  end.

Definition access_data (g : geometry) (st : state) (addr : Z) : option state :=
  '(t, currSet) ← decompose g addr;
  let c := cache st in
  let n := Z.to_nat (E g) in
  h ← hit_loop c currSet t 0 n;
  match h with
  | Some i =>
      c' ← update_line c currSet i
              (λ ln, {| valid := valid ln; tag := tag ln; lru := lru_count st |});
      Some {| S_ := S_ st; cache := c';
              lru_count := incr (lru_count st);
              hit_cnt := incr (hit_cnt st);
              miss_cnt := miss_cnt st;
              evict_cnt := evict_cnt st |}
  | None =>
      m ← cold_loop c currSet 0 n;
      match m with
      | Some i =>
          c' ← update_line c currSet i
                  (λ ln, {| valid := true; tag := t; lru := lru_count st |});
          Some {| S_ := S_ st; cache := c';
                  lru_count := lru_count st;
                  hit_cnt := hit_cnt st;
                  miss_cnt := incr (miss_cnt st);
                  evict_cnt := evict_cnt st |}
      | None =>
          line ← lru_loop c currSet 0 0 n;
          c' ← update_line c currSet line
                  (λ ln, {| valid := valid ln; tag := t; lru := lru_count st |});
          Some {| S_ := S_ st; cache := c';
                  lru_count := lru_count st;
                  hit_cnt := hit_cnt st;
                  miss_cnt := incr (miss_cnt st);
                  evict_cnt := incr (evict_cnt st) |}
      end
  end.

(** ** replay_trace *)

(** A trace line after [sscanf]: the operation character [buf[1]] and the
    address. The length field has no use in the simulation. *)
Definition trace_record : Type := ascii * Z.

Definition replay_record (g : geometry) (st : state) (r : trace_record)
    : option state :=
  let '(op, addr) := r in
  if Ascii.eqb op "S" || Ascii.eqb op "L" || Ascii.eqb op "M" then
    if Ascii.eqb op "S" || Ascii.eqb op "L" then access_data g st addr
    else if Ascii.eqb op "M" then
      st1 ← access_data g st addr; access_data g st1 addr
    else Some st
  else Some st.

Fixpoint replay_trace (g : geometry) (st : state) (trace : list trace_record)
    : option state :=
  match trace with
  | [] => Some st
  | r :: rest => st' ← replay_record g st r; replay_trace g st' rest
  end.

(** Consecutive calls of [access_data], one per address. *)
Fixpoint access_seq (g : geometry) (st : state) (addrs : list Z)
    : option state :=
  match addrs with
  | [] => Some st
  | a :: rest => st' ← access_data g st a; access_seq g st' rest
  end.

(** The calls that [replay_trace] makes for a trace. *)
Definition calls_of (trace : list trace_record) : list Z :=
  trace ≫= λ '(op, addr),
    if Ascii.eqb op "S" || Ascii.eqb op "L" then [addr]
    else if Ascii.eqb op "M" then [addr; addr]
    else [].

(** ** Reference formulas of the specification *)

(** The specification's decomposition: [tag = address >> (s + b)] and
    [set_index = (address >> b) & (2^s - 1)]. *)
Definition spec_tag (g : geometry) (addr : Z) : Z :=
  Z.shiftr addr (s g + b g).

Definition spec_set_index (g : geometry) (addr : Z) : Z :=
  Z.land (Z.shiftr addr (b g)) (2 ^ s g - 1).

(** ** Predicates on geometries, sets and states *)

(** A geometry for which [init_cache] builds the cache it is asked for: the
    three arguments are positive, [s + b] is below the width of an address
    and [S = 2^s] is an [int]. *)
Definition valid_geometry (g : geometry) : Prop :=
  (0 < s g ≤ 30 ∧ 0 < E g ≤ int_max ∧ 0 < b g ∧ s g + b g < 64)%Z.

(** Every set has the [E] lines that [init_cache] allocates for it. *)
Definition shaped (g : geometry) (st : state) : Prop :=
  Forall (λ l : cache_set_t, length l = Z.to_nat (E g)) (cache st).

(** The cache has the shape that [init_cache] allocates: [S = 2^s] sets of
    [E] lines. *)
Definition well_formed (g : geometry) (st : state) : Prop :=
  S_ st = (2 ^ s g)%Z ∧
  length (cache st) = Z.to_nat (S_ st) ∧
  shaped g st.

(** The access of [addr] decomposes into tag [t] and set index [k], and [k]
    selects the set [l], of [E > 0] lines, of the cache. *)
Definition selects (g : geometry) (st : state) (addr t k : Z)
    (l : cache_set_t) : Prop :=
  decompose g addr = Some (t, k) ∧
  (0 ≤ k)%Z ∧
  cache st !! Z.to_nat k = Some l ∧
  length l = Z.to_nat (E g) ∧
  (0 < E g)%Z.

(** Line [ln] caches tag [t]. *)
Definition holds_tag (t : Z) (ln : cache_line_t) : Prop :=
  valid ln = true ∧ tag ln = t.

(** Tag [t] is cached in the set. *)
Definition cached (t : Z) (l : cache_set_t) : Prop :=
  ∃ ln, ln ∈ l ∧ holds_tag t ln.

(** Every line of the set is valid. *)
Definition full (l : cache_set_t) : Prop :=
  ∀ ln, ln ∈ l → valid ln = true.

(** [i] is the first line, in storage order, with property [P]. *)
Definition first_with (P : cache_line_t → Prop) (l : cache_set_t) (i : nat)
    : Prop :=
  (∃ ln, l !! i = Some ln ∧ P ln) ∧
  ∀ j lj, (j < i)%nat → l !! j = Some lj → ¬ P lj.

(** [i] is the line with the smallest stamp, the lowest such line on a tie. *)
Definition first_min (l : cache_set_t) (i : nat) : Prop :=
  ∃ li, l !! i = Some li ∧
    (∀ j lj, l !! j = Some lj → (lru li ≤ lru lj)%Z) ∧
    (∀ j lj, (j < i)%nat → l !! j = Some lj → (lru li < lru lj)%Z).

(** No tag is cached twice in the set. *)
Definition unique_tags (l : cache_set_t) : Prop :=
  ∀ i j li lj,
    l !! i = Some li → l !! j = Some lj →
    valid li = true → valid lj = true → tag li = tag lj → i = j.

Definition tags_unique (st : state) : Prop :=
  Forall unique_tags (cache st).

(** The state after one access, in terms of the set [l] that the address
    selects: which line is written, what is written, and the counters. *)
Definition written (st : state) (k : Z) (l : cache_set_t) (i : nat)
    (ln : cache_line_t) : cache_t :=
  <[Z.to_nat k := <[i := ln]> l]> (cache st).

Inductive access_step (st : state) (t k : Z) (l : cache_set_t)
    : state → Prop :=
| step_hit i :
    first_with (holds_tag t) l i →
    access_step st t k l
      {| S_ := S_ st;
         cache := written st k l i
                    {| valid := true; tag := t; lru := lru_count st |};
         lru_count := incr (lru_count st);
         hit_cnt := incr (hit_cnt st);
         miss_cnt := miss_cnt st;
         evict_cnt := evict_cnt st |}
| step_fill i :
    ¬ cached t l →
    first_with (λ ln, valid ln = false) l i →
    access_step st t k l
      {| S_ := S_ st;
         cache := written st k l i
                    {| valid := true; tag := t; lru := lru_count st |};
         lru_count := lru_count st;
         hit_cnt := hit_cnt st;
         miss_cnt := incr (miss_cnt st);
         evict_cnt := evict_cnt st |}
| step_evict i :
    ¬ cached t l →
    full l →
    first_min l i →
    access_step st t k l
      {| S_ := S_ st;
         cache := written st k l i
                    {| valid := true; tag := t; lru := lru_count st |};
         lru_count := lru_count st;
         hit_cnt := hit_cnt st;
         miss_cnt := incr (miss_cnt st);
         evict_cnt := incr (evict_cnt st) |}.

(** The invariant of the third loop: [line] is the first minimum of the
    lines before [i]. *)
Definition min_before (l : cache_set_t) (i line : nat) : Prop :=
  ∃ ll, l !! line = Some ll ∧
    (∀ j lj, (j < i)%nat → l !! j = Some lj → (lru ll ≤ lru lj)%Z) ∧
    (∀ j lj, (j < line)%nat → l !! j = Some lj → (lru ll < lru lj)%Z).

(** ** Sequences of tags and the sets they fill *)

(** The distinct tags of a sequence of accesses, in the order of their first
    occurrence. *)
Definition add_tag (ts : list Z) (t : Z) : list Z :=
  if decide (t ∈ ts) then ts else ts ++ [t].

Definition seen_tags (ts tags : list Z) : list Z := foldl add_tag ts tags.

Definition line_key (ln : cache_line_t) : bool * Z := (valid ln, tag ln).

(** A set of [n] lines that has only ever been filled: its first lines cache
    the tags [ts], in order, and the other lines are as [init_cache] left
    them. *)
Definition set_holds (n : nat) (ts : list Z) (l : cache_set_t) : Prop :=
  line_key <$> l =
    (pair true <$> ts) ++ replicate (n - length ts) (false, 0%Z).

(** ** History of accesses *)

(** The position, in the history of the tags accessed so far, of the last
    access of tag [t]; [i] is the position of the head of the history. *)
Fixpoint last_use_from (i : nat) (history : list Z) (t : Z)
    (found : option nat) : option nat :=
  match history with
  | [] => found
  | x :: rest =>
      last_use_from (S i) rest t (if decide (x = t) then Some i else found)
  end.

Definition last_use (history : list Z) (t : Z) : option nat :=
  last_use_from 0 history t None.

(** ** Concrete geometries and states used by the examples *)

(** [-s 1 -E 1 -b 1]: two sets of one line. *)
Definition g111 : geometry := {| s := 1; E := 1; b := 1 |}.

(** [-s 1 -E 2 -b 1]: two sets of two lines. *)
Definition g121 : geometry := {| s := 1; E := 2; b := 1 |}.

(** [-s 32 -E 1 -b 1]: positive arguments with [s + b = 33 < 64]. *)
Definition g_wide : geometry := {| s := 32; E := 1; b := 1 |}.

(** An allocator that grants every request. *)
Definition malloc_always : Z → bool := λ _, true.

(** The cache of [g111] in which set 0 caches tag 0. *)
Definition st111_tag0 : state :=
  {| S_ := 2;
     cache := [[{| valid := true; tag := 0; lru := 0 |}]; [empty_line]];
     lru_count := 0; hit_cnt := 0; miss_cnt := 1; evict_cnt := 0 |}.

(** The cache of [g111] as [init_cache] leaves it. *)
Definition st111_empty : state :=
  {| S_ := 2; cache := [[empty_line]; [empty_line]];
     lru_count := 0; hit_cnt := 0; miss_cnt := 0; evict_cnt := 0 |}.

(** ** free_cache *)

(** The loop of [free_cache]: set [i] is read through the [cache] pointer,
    freed, and its pointer is set to [NULL] (a set without lines), for [n]
    more sets. Reading a set pointer outside the array has no defined
    result. *)
Fixpoint free_sets (c : cache_t) (i n : nat) : option cache_t :=
  match n with
  | O => Some c
  | S n' => _ ← c !! i; free_sets (<[i := []]> c) (S i) n'
  end.

(** After the loop the array of sets is freed and [cache] is [NULL]; the
    other globals are not touched. *)
Definition free_cache (st : state) : option state :=
  _ ← free_sets (cache st) 0 (Z.to_nat (S_ st));
  Some {| S_ := S_ st; cache := [];
          lru_count := lru_count st;
          hit_cnt := hit_cnt st;
          miss_cnt := miss_cnt st;
          evict_cnt := evict_cnt st |}.

(** ** main *)

(** How the program ends: [exit] with a status, the summary that
    [print_summary] receives, or no defined result. *)
Inductive outcome : Type :=
| Exit (status : Z)
| Summary (hits misses evictions : Z)
| Undefined.

(** [print_usage] prints the usage text and ends the program itself, with
    [exit(0)]: a statement that follows a call of it is never reached. *)
Definition print_usage : outcome := Exit 0.

(** [main] once [getopt] has stored the options: [g] holds [s], [E] and [b]
    ([0] when the option is absent), [trace_file] is [None] when [-t] is
    absent, [Some None] when the file cannot be opened and [Some (Some
    trace)] with the records of the file otherwise. When an argument is
    missing [main] calls [print_usage], which exits with status 0 before
    the [exit(1)] that follows the call; [init_cache] exits with status 0
    when an allocation fails and [replay_trace] with status 1 when the file
    cannot be opened. *)
Definition main (malloc_ok : Z → bool) (g : geometry)
    (trace_file : option (option (list trace_record))) : outcome :=
  if (s g =? 0)%Z || (E g =? 0)%Z || (b g =? 0)%Z
       || match trace_file with None => true | Some _ => false end
  then print_usage
  else
    match init_cache malloc_ok g startup with
    | None => Exit 0
    | Some st0 =>
        match trace_file with
        | Some (Some trace) =>
            match replay_trace g st0 trace with
            | None => Undefined
            | Some st1 =>
                match free_cache st1 with
                | None => Undefined
                | Some st2 =>
                    Summary (hit_cnt st2) (miss_cnt st2) (evict_cnt st2)
                end
            end
        | _ => Exit 1
        end
    end.

(** ** Occupancy and accounting *)

(** The number of valid lines of a set and of the cache. *)
Definition valid_count (l : cache_set_t) : nat :=
  sum_list ((λ ln, Nat.b2n (valid ln)) <$> l).

Definition occupancy (c : cache_t) : nat := sum_list (valid_count <$> c).

(** The relations between the globals after [n] accesses of a run that
    started with all of them at zero. *)
Definition accounted (n : Z) (st : state) : Prop :=
  (0 ≤ evict_cnt st ≤ miss_cnt st)%Z ∧
  (0 ≤ hit_cnt st)%Z ∧
  (hit_cnt st + miss_cnt st = n)%Z ∧
  lru_count st = hit_cnt st ∧
  Z.of_nat (occupancy (cache st)) = (miss_cnt st - evict_cnt st)%Z ∧
  Forall (Forall (λ ln, (0 ≤ lru ln ≤ lru_count st)%Z)) (cache st).

(** The operation character of a record is one that [replay_trace] acts
    on. *)
Definition data_op (r : trace_record) : bool :=
  Ascii.eqb r.1 "S" || Ascii.eqb r.1 "L" || Ascii.eqb r.1 "M".

(** * Proofs *)

(** ** Machine integers: facts *)

Lemma to_int_id z : is_int z → to_int z = z.
Proof.
  unfold is_int, int_min, int_max, to_int. intros Hz.
  rewrite Z.mod_small; lia.
Qed.

Lemma incr_exact x : is_int x → (x < int_max)%Z → incr x = (x + 1)%Z.
Proof.
  unfold incr, is_int, int_min, int_max. intros Hx Hlt.
  apply to_int_id. unfold is_int, int_min, int_max. lia.
Qed.

Lemma to_addr_id z : is_addr z → to_addr z = z.
Proof. unfold is_addr, to_addr. intros Hz. apply Z.mod_small. lia. Qed.

Lemma shift_ok_true n : (0 ≤ n < 64)%Z → shift_ok n = true.
Proof. unfold shift_ok. intros Hn. apply andb_true_iff. lia. Qed.

Lemma pow2_le_mono (m n : Z) : (0 ≤ m ≤ n)%Z → (2 ^ m ≤ 2 ^ n)%Z.
Proof. intros Hmn. apply Z.pow_le_mono_r; lia. Qed.

(** The low [n + m] bits of [a], shifted right by [m], are bits [m] to
    [m + n] of [a]. *)
Lemma mod_pow2_div (a n m : Z) :
  (0 ≤ n)%Z → (0 ≤ m)%Z →
  ((a mod 2 ^ (n + m)) / 2 ^ m = (a / 2 ^ m) mod 2 ^ n)%Z.
Proof.
  intros Hn Hm.
  assert (0 < 2 ^ m)%Z by (apply Z.pow_pos_nonneg; lia).
  assert (0 < 2 ^ n)%Z by (apply Z.pow_pos_nonneg; lia).
  rewrite Z.add_comm, Z.pow_add_r, Z.rem_mul_r by lia.
  rewrite (Z.mul_comm (2 ^ m)), Z.div_add by lia.
  rewrite (Z.div_small (a mod 2 ^ m)); [lia|].
  apply Z.mod_pos_bound. lia.
Qed.

(** ** The address decomposition *)

Section decomposition.
Variable g : geometry.
Variable addr : Z.
Hypothesis Hs : (0 ≤ s g ≤ 31)%Z.
Hypothesis Hb : (0 ≤ b g)%Z.
Hypothesis Hsb : (s g + b g < 64)%Z.
Hypothesis Haddr : is_addr addr.

Lemma decompose_div_mod :
  decompose g addr =
    Some ((addr / 2 ^ (s g + b g))%Z, ((addr / 2 ^ b g) mod 2 ^ s g)%Z).
Proof.
  unfold decompose.
  assert (Hsbi : to_int (s g + b g) = (s g + b g)%Z).
  { apply to_int_id. unfold is_int, int_min, int_max. lia. }
  rewrite Hsbi, !shift_ok_true by lia. simpl.
  set (sb := (s g + b g)%Z).
  assert (Hp : (0 < 2 ^ sb)%Z) by (apply Z.pow_pos_nonneg; lia).
  assert (Hp64 : (2 ^ sb ≤ 2 ^ 64)%Z) by (apply pow2_le_mono; lia).
  rewrite Z.shiftr_div_pow2, Z.shiftl_mul_pow2 by lia.
  pose proof (Z.div_mod addr (2 ^ sb) ltac:(lia)) as Hdm.
  pose proof (Z.mod_pos_bound addr (2 ^ sb) Hp) as Hmod.
  unfold is_addr in Haddr.
  assert (Hq : (0 ≤ addr / 2 ^ sb)%Z) by (apply Z.div_pos; lia).
  rewrite (to_addr_id (addr / 2 ^ sb * 2 ^ sb)) by (unfold is_addr; nia).
  replace (addr - addr / 2 ^ sb * 2 ^ sb)%Z with (addr mod 2 ^ sb)%Z by lia.
  rewrite to_addr_id by (unfold is_addr; lia).
  rewrite Z.shiftr_div_pow2 by lia.
  unfold sb. rewrite mod_pow2_div by lia.
  rewrite to_int_id; [done|].
  assert (0 < 2 ^ s g)%Z by (apply Z.pow_pos_nonneg; lia).
  pose proof (Z.mod_pos_bound (addr / 2 ^ b g) (2 ^ s g) ltac:(lia)).
  assert (2 ^ s g ≤ 2 ^ 31)%Z by (apply pow2_le_mono; lia).
  unfold is_int, int_min, int_max. lia.
Qed.

Lemma decompose_spec :
  decompose g addr = Some (spec_tag g addr, spec_set_index g addr).
Proof.
  rewrite decompose_div_mod. unfold spec_tag, spec_set_index.
  rewrite !Z.shiftr_div_pow2 by lia.
  replace (2 ^ s g - 1)%Z with (Z.ones (s g))
    by (rewrite Z.ones_equiv; lia).
  by rewrite Z.land_ones by lia.
Qed.

Lemma decompose_range t k :
  decompose g addr = Some (t, k) → (0 ≤ k < 2 ^ s g)%Z.
Proof.
  rewrite decompose_div_mod. intros [= _ <-].
  apply Z.mod_pos_bound, Z.pow_pos_nonneg; lia.
Qed.
End decomposition.

(** ** The three loops of access_data *)

Lemma list_alter_lookup_insert {A} (f : A → A) (l : list A) i x :
  l !! i = Some x → alter f i l = <[i := f x]> l.
Proof.
  revert i. induction l as [|y l IH]; intros [|i] Hi; simplify_eq/=; [done|].
  f_equal. by apply IH.
Qed.

Section loops.
Variable c : cache_t.
Variable k : Z.
Variable l : cache_set_t.
Hypothesis Hk : (0 ≤ k)%Z.
Hypothesis Hl : c !! Z.to_nat k = Some l.

Lemma line_at_lookup i : line_at c k i = l !! i.
Proof.
  unfold line_at. destruct (Z.ltb_spec k 0) as [?|_]; [lia|].
  by rewrite Hl.
Qed.

Lemma update_line_insert i f ln :
  l !! i = Some ln →
  update_line c k i f = Some (<[Z.to_nat k := <[i := f ln]> l]> c).
Proof.
  intros Hi. unfold update_line. rewrite line_at_lookup, Hi. simpl.
  by rewrite (list_alter_lookup_insert _ c _ l), (list_alter_lookup_insert _ l _ ln).
Qed.

(** A loop that returns the first line on which a test succeeds. *)
Section scan.
Variable loop : nat → nat → option (option nat).
Variable test : cache_line_t → bool.
Hypothesis loop_O : ∀ i, loop i O = Some None.
Hypothesis loop_S : ∀ i n,
  loop i (S n) =
    ln ← line_at c k i; if test ln then Some (Some i) else loop (S i) n.

Lemma scan_total i n :
  (i + n ≤ length l)%nat → is_Some (loop i n).
Proof.
  revert i. induction n as [|n IH]; intros i Hlen.
  - rewrite loop_O. eauto.
  - rewrite loop_S, line_at_lookup.
    destruct (lookup_lt_is_Some_2 l i ltac:(lia)) as [ln ->]. simpl.
    destruct (test ln); [eauto|]. apply IH. lia.
Qed.

Lemma scan_found i n j :
  loop i n = Some (Some j) →
  (i ≤ j < i + n)%nat ∧
  (∃ ln, l !! j = Some ln ∧ test ln = true) ∧
  ∀ j' lj, (i ≤ j' < j)%nat → l !! j' = Some lj → test lj = false.
Proof.
  revert i. induction n as [|n IH]; intros i.
  - rewrite loop_O. discriminate.
  - rewrite loop_S, line_at_lookup.
    destruct (l !! i) as [ln|] eqn:Hi; [simpl|discriminate].
    destruct (test ln) eqn:Ht.
    + intros [= <-]. split; [lia|]. split; [eauto|]. intros; lia.
    + intros Hloop. destruct (IH _ Hloop) as (Hj & Hex & Hbefore).
      split; [lia|]. split; [done|].
      intros j' lj Hj' Hlj. destruct (decide (j' = i)) as [->|Hne].
      * congruence.
      * apply (Hbefore j'); [lia|done].
Qed.

Lemma scan_not_found i n :
  loop i n = Some None →
  ∀ j lj, (i ≤ j < i + n)%nat → l !! j = Some lj → test lj = false.
Proof.
  revert i. induction n as [|n IH]; intros i.
  - rewrite loop_O. intros _ j lj Hj. lia.
  - rewrite loop_S, line_at_lookup.
    destruct (l !! i) as [ln|] eqn:Hi; [simpl|discriminate].
    destruct (test ln) eqn:Ht; [discriminate|].
    intros Hloop j lj Hj Hlj. destruct (decide (j = i)) as [->|Hne].
    + congruence.
    + apply (IH _ Hloop j); [lia|done].
Qed.
End scan.

Lemma lru_loop_total line i n :
  (line < length l)%nat → (i + n ≤ length l)%nat →
  is_Some (lru_loop c k line i n).
Proof.
  revert line i. induction n as [|n IH]; intros line i Hline Hlen; simpl.
  - eauto.
  - rewrite !line_at_lookup.
    destruct (lookup_lt_is_Some_2 l i ltac:(lia)) as [li ->].
    destruct (lookup_lt_is_Some_2 l line Hline) as [ll ->]. simpl.
    apply IH; [|lia]. destruct (lru li <? lru ll)%Z; lia.
Qed.

Lemma lru_loop_min line i n m :
  lru_loop c k line i n = Some m →
  (line ≤ i)%nat → min_before l i line → min_before l (i + n) m.
Proof.
  revert line i. induction n as [|n IH]; intros line i; simpl.
  - intros [= <-] _. by rewrite Nat.add_0_r.
  - rewrite !line_at_lookup.
    intros Hloop Hle (ll' & Hll' & Hmin & Hfirst). revert Hloop.
    rewrite Hll'.
    destruct (l !! i) as [li|] eqn:Hi; [simpl|discriminate].
    intros Hloop.
    replace (i + S n)%nat with (S i + n)%nat by lia.
    apply (IH _ _ Hloop).
    { destruct (lru li <? lru ll')%Z; lia. }
    destruct (Z.ltb_spec (lru li) (lru ll')) as [Hlt|Hge].
    + exists li. split; [done|]. split.
      * intros j lj Hj Hlj. destruct (decide (j = i)) as [->|Hne].
        -- simplify_eq. lia.
        -- specialize (Hmin j lj ltac:(lia) Hlj). lia.
      * intros j lj Hj Hlj. specialize (Hmin j lj Hj Hlj). lia.
    + exists ll'. split; [done|]. split; [|done].
      intros j lj Hj Hlj. destruct (decide (j = i)) as [->|Hne].
      * simplify_eq. lia.
      * apply (Hmin j); [lia|done].
Qed.

Lemma lru_loop_first_min n :
  (0 < n)%nat → length l = n →
  ∃ m, lru_loop c k 0 0 n = Some m ∧ first_min l m.
Proof.
  intros Hn Hlen.
  destruct (lru_loop_total 0 0 n) as [m Hm]; [lia..|].
  exists m. split; [done|].
  destruct (lookup_lt_is_Some_2 l 0 ltac:(lia)) as [l0 Hl0].
  destruct (lru_loop_min 0 0 n m Hm) as (lm & Hlm & Hmin & Hfirst); [lia| |].
  { exists l0. split; [done|]. split; intros; lia. }
  exists lm. split; [done|]. split; [|done].
  intros j lj Hlj. apply (Hmin j); [|done].
  apply lookup_lt_Some in Hlj. lia.
Qed.
End loops.

(** ** One access, in terms of the selected set *)

Lemma holds_tag_test t ln :
  (tag ln =? t)%Z && valid ln = true ↔ holds_tag t ln.
Proof.
  unfold holds_tag. rewrite andb_true_iff, Z.eqb_eq. tauto.
Qed.

Lemma not_cached_lookup t (l : cache_set_t) :
  (∀ j lj, l !! j = Some lj → (tag lj =? t)%Z && valid lj = false) →
  ¬ cached t l.
Proof.
  intros Hno (ln & [j Hj]%list_elem_of_lookup & Hln).
  apply holds_tag_test in Hln. specialize (Hno j ln Hj). congruence.
Qed.

Lemma full_lookup (l : cache_set_t) :
  (∀ j lj, l !! j = Some lj → negb (valid lj) = false) → full l.
Proof.
  intros Hall ln [j Hj]%list_elem_of_lookup.
  specialize (Hall j ln Hj). by destruct (valid ln).
Qed.

Lemma access_data_step g st addr t k (l : cache_set_t) :
  selects g st addr t k l →
  ∃ st', access_data g st addr = Some st' ∧ access_step st t k l st'.
Proof.
  intros (Hdec & Hk & Hl & Hlen & HE). unfold access_data. rewrite Hdec. simpl.
  set (n := Z.to_nat (E g)) in *.
  pose proof (scan_total (cache st) k l Hk Hl (hit_loop (cache st) k t)
    (λ ln, (tag ln =? t)%Z && valid ln) (λ _, eq_refl) (λ _ _, eq_refl)
    0%nat n ltac:(lia)) as [h Hh].
  rewrite Hh. simpl. destruct h as [i|].
  - (* hit *)
    apply (scan_found (cache st) k l Hk Hl (hit_loop (cache st) k t)
      (λ ln, (tag ln =? t)%Z && valid ln) (λ _, eq_refl) (λ _ _, eq_refl))
      in Hh as (_ & (ln & Hi & Hln) & Hbefore).
    apply holds_tag_test in Hln as Hln'. destruct Hln' as [Hv Ht].
    rewrite (update_line_insert (cache st) k l Hk Hl i _ ln Hi). simpl.
    rewrite Hv, Ht. eexists. split; [done|]. apply step_hit.
    split; [by eexists|].
    intros j lj Hj Hlj Hholds%holds_tag_test.
    specialize (Hbefore j lj ltac:(lia) Hlj). simpl in Hbefore. congruence.
  - (* miss *)
    assert (Hnc : ¬ cached t l).
    { apply not_cached_lookup. intros j lj Hlj.
      apply (scan_not_found (cache st) k l Hk Hl (hit_loop (cache st) k t)
        (λ ln, (tag ln =? t)%Z && valid ln) (λ _, eq_refl) (λ _ _, eq_refl)
        0%nat n Hh j lj); [|done].
      apply lookup_lt_Some in Hlj. lia. }
    pose proof (scan_total (cache st) k l Hk Hl (cold_loop (cache st) k)
      (λ ln, negb (valid ln)) (λ _, eq_refl) (λ _ _, eq_refl)
      0%nat n ltac:(lia)) as [m Hm].
    rewrite Hm. simpl. destruct m as [i|].
    + (* an invalid line is filled *)
      apply (scan_found (cache st) k l Hk Hl (cold_loop (cache st) k)
        (λ ln, negb (valid ln)) (λ _, eq_refl) (λ _ _, eq_refl))
        in Hm as (_ & (ln & Hi & Hln) & Hbefore).
      rewrite (update_line_insert (cache st) k l Hk Hl i _ ln Hi). simpl.
      eexists. split; [done|]. apply step_fill; [done|].
      split.
      * exists ln. split; [done|]. by destruct (valid ln).
      * intros j lj Hj Hlj Hinv.
        specialize (Hbefore j lj ltac:(lia) Hlj). simpl in Hbefore.
        rewrite Hinv in Hbefore. discriminate.
    + (* the set is full: a line is replaced *)
      assert (Hfull : full l).
      { apply full_lookup. intros j lj Hlj.
        apply (scan_not_found (cache st) k l Hk Hl (cold_loop (cache st) k)
          (λ ln, negb (valid ln)) (λ _, eq_refl) (λ _ _, eq_refl)
          0%nat n Hm j lj); [|done].
        apply lookup_lt_Some in Hlj. lia. }
      destruct (lru_loop_first_min (cache st) k l Hk Hl n ltac:(lia) Hlen)
        as (line & Hline & Hmin).
      rewrite Hline. simpl.
      destruct Hmin as (ll & Hll & Hmin).
      rewrite (update_line_insert (cache st) k l Hk Hl line _ ll Hll). simpl.
      rewrite (Hfull ll) by (by eapply list_elem_of_lookup_2).
      eexists. split; [done|]. apply step_evict; [done..|].
      by exists ll.
Qed.

(** ** Shape of the cache *)

Lemma access_step_cache st t k (l : cache_set_t) st' :
  access_step st t k l st' →
  S_ st' = S_ st ∧
  ∃ i, (i < length l)%nat ∧
    cache st' =
      written st k l i {| valid := true; tag := t; lru := lru_count st |}.
Proof.
  intros [i [(ln & Hi & _) _]|i _ [(ln & Hi & _) _]|i _ _ (ln & Hi & _)];
    (split; [done|]); exists i; (split; [|done]); by eapply lookup_lt_Some.
Qed.

Lemma access_step_shaped g st t k (l : cache_set_t) st' :
  shaped g st → cache st !! Z.to_nat k = Some l →
  access_step st t k l st' →
  shaped g st' ∧ length (cache st') = length (cache st).
Proof.
  intros Hsets Hl Hstep.
  assert (Hset : length l = Z.to_nat (E g)).
  { by eapply (Forall_lookup_1 _ _ _ _ Hsets). }
  destruct (access_step_cache _ _ _ _ _ Hstep) as (_ & i & _ & Hcache).
  unfold shaped. rewrite Hcache. unfold written. split.
  - apply Forall_insert; [done|]. by rewrite length_insert.
  - by rewrite length_insert.
Qed.

Lemma access_step_well_formed g st t k (l : cache_set_t) st' :
  well_formed g st → cache st !! Z.to_nat k = Some l →
  access_step st t k l st' → well_formed g st'.
Proof.
  intros (HS & Hlen & Hsets) Hl Hstep.
  destruct (access_step_shaped g _ _ _ _ _ Hsets Hl Hstep) as [Hsets' Hlen'].
  destruct (access_step_cache _ _ _ _ _ Hstep) as (HS' & _).
  split; [congruence|]. split; [congruence|done].
Qed.

Lemma compute_S_pow2 g : (0 ≤ s g ≤ 30)%Z → compute_S g = (2 ^ s g)%Z.
Proof.
  intros Hs. unfold compute_S.
  rewrite <- (Z2Nat.id (s g)) at 2 by lia.
  assert (Hn : (Z.to_nat (s g) ≤ 30)%nat) by lia.
  induction (Z.to_nat (s g)) as [|n IH]; [done|].
  simpl Nat.iter. rewrite IH by lia.
  rewrite Nat2Z.inj_succ, Z.pow_succ_r by lia.
  assert (0 < 2 ^ Z.of_nat n)%Z by (apply Z.pow_pos_nonneg; lia).
  assert (2 ^ Z.of_nat n ≤ 2 ^ 29)%Z by (apply pow2_le_mono; lia).
  rewrite to_int_id; [lia|]. unfold is_int, int_min, int_max. lia.
Qed.

Lemma init_cache_Some malloc_ok g st st0 :
  init_cache malloc_ok g st = Some st0 →
  S_ st0 = compute_S g ∧
  cache st0 =
    replicate (Z.to_nat (compute_S g))
      (replicate (Z.to_nat (E g)) empty_line) ∧
  lru_count st0 = lru_count st ∧ hit_cnt st0 = hit_cnt st ∧
  miss_cnt st0 = miss_cnt st ∧ evict_cnt st0 = evict_cnt st.
Proof.
  unfold init_cache. repeat case_match; try discriminate. by intros [= <-].
Qed.

Lemma init_cache_shaped malloc_ok g st st0 :
  init_cache malloc_ok g st = Some st0 → shaped g st0.
Proof.
  intros (_ & Hcache & _)%init_cache_Some. unfold shaped. rewrite Hcache.
  apply Forall_replicate. by rewrite length_replicate.
Qed.

Lemma init_cache_well_formed malloc_ok g st st0 :
  (0 ≤ s g ≤ 30)%Z →
  init_cache malloc_ok g st = Some st0 →
  well_formed g st0.
Proof.
  intros Hs Hinit. pose proof (init_cache_shaped _ _ _ _ Hinit) as Hsh.
  apply init_cache_Some in Hinit as (HS & Hcache & _).
  rewrite (compute_S_pow2 g Hs) in HS, Hcache.
  split; [done|]. split; [|done].
  by rewrite Hcache, HS, length_replicate.
Qed.

(** For a valid geometry every address selects a set of the cache. *)
Lemma selected_set g st addr :
  valid_geometry g → well_formed g st → is_addr addr →
  ∃ l, selects g st addr (spec_tag g addr) (spec_set_index g addr) l ∧
       (spec_set_index g addr < 2 ^ s g)%Z.
Proof.
  intros (Hs & HE & Hb & Hsb) (HS & Hlen & Hsets) Ha.
  pose proof (decompose_spec g addr ltac:(lia) ltac:(lia) Hsb Ha) as Hdec.
  pose proof (decompose_range g addr ltac:(lia) ltac:(lia) Hsb Ha _ _ Hdec)
    as Hrange.
  destruct (lookup_lt_is_Some_2 (cache st)
              (Z.to_nat (spec_set_index g addr))) as [l Hl].
  { rewrite Hlen, HS. lia. }
  exists l. split; [|lia]. split; [done|]. split; [lia|]. split; [done|].
  split; [|lia]. by eapply (Forall_lookup_1 _ _ _ _ Hsets).
Qed.

(** An access that returns has selected a set of the cache. *)
Lemma access_data_Some_selects g st addr st' :
  shaped g st → access_data g st addr = Some st' →
  ∃ t k l, selects g st addr t k l.
Proof.
  intros Hsets. unfold access_data.
  destruct (decompose g addr) as [[t k]|] eqn:Hdec; [simpl|done].
  intros Hacc.
  assert (Hline : is_Some (line_at (cache st) k 0)).
  { destruct (Z.to_nat (E g)) as [|n]; simpl in Hacc.
    - unfold update_line in Hacc.
      destruct (line_at (cache st) k 0); [eauto|done].
    - destruct (line_at (cache st) k 0); [eauto|done]. }
  destruct Hline as [ln Hln]. unfold line_at in Hln.
  destruct (Z.ltb_spec k 0) as [|Hk]; [done|].
  destruct (cache st !! Z.to_nat k) as [l|] eqn:Hl; [simpl in Hln|done].
  assert (Hlen : length l = Z.to_nat (E g)).
  { by eapply (Forall_lookup_1 _ _ _ _ Hsets). }
  apply lookup_lt_Some in Hln.
  exists t, k, l. repeat split; [done..|lia].
Qed.

(** ** What an access leaves alone *)

Lemma written_line_at_other st k (l : cache_set_t) i ln k' i' :
  cache st !! Z.to_nat k = Some l →
  (0 ≤ k)%Z →
  k' ≠ k ∨ i' ≠ i →
  line_at (written st k l i ln) k' i' = line_at (cache st) k' i'.
Proof.
  intros Hl Hk Hne. unfold line_at, written.
  destruct (Z.ltb_spec k' 0) as [|Hk']; [done|].
  destruct (decide (k' = k)) as [->|Hkk].
  - rewrite list_lookup_insert_eq by (by eapply lookup_lt_Some).
    rewrite Hl. simpl. apply list_lookup_insert_ne.
    destruct Hne as [?|?]; congruence.
  - rewrite list_lookup_insert_ne by lia. done.
Qed.

Lemma written_line_at st k (l : cache_set_t) i ln :
  cache st !! Z.to_nat k = Some l →
  (0 ≤ k)%Z →
  (i < length l)%nat →
  line_at (written st k l i ln) k i = Some ln.
Proof.
  intros Hl Hk Hi. unfold line_at, written.
  destruct (Z.ltb_spec k 0) as [|_]; [lia|].
  rewrite list_lookup_insert_eq by (by eapply lookup_lt_Some).
  simpl. by apply list_lookup_insert_eq.
Qed.

(** The one line that an access writes, and what it writes there. *)
Lemma access_step_lines st t k (l : cache_set_t) st' :
  cache st !! Z.to_nat k = Some l → (0 ≤ k)%Z →
  access_step st t k l st' →
  ∃ i, (i < length l)%nat ∧
    line_at (cache st') k i =
      Some {| valid := true; tag := t; lru := lru_count st |} ∧
    ∀ k' i', k' ≠ k ∨ i' ≠ i →
      line_at (cache st') k' i' = line_at (cache st) k' i'.
Proof.
  intros Hl Hk Hstep.
  destruct (access_step_cache _ _ _ _ _ Hstep) as (_ & i & Hi & ->).
  exists i. split; [done|]. split; [by apply written_line_at|].
  intros k' i' Hne. by apply written_line_at_other.
Qed.

(** ** The cases of an access *)

Lemma first_with_cached t (l : cache_set_t) i :
  first_with (holds_tag t) l i → cached t l.
Proof.
  intros [(ln & Hi & Hln) _]. exists ln. split; [|done].
  by eapply list_elem_of_lookup_2.
Qed.

Lemma first_invalid_not_full (l : cache_set_t) i :
  first_with (λ ln, valid ln = false) l i → ¬ full l.
Proof.
  intros [(ln & Hi & Hln) _] Hfull.
  rewrite (Hfull ln) in Hln by (by eapply list_elem_of_lookup_2). discriminate.
Qed.

(** The three cases exclude each other: which one an access takes is
    decided by the set it selects. *)
Lemma access_step_hit_inv st t k (l : cache_set_t) st' :
  cached t l → access_step st t k l st' →
  ∃ i, first_with (holds_tag t) l i ∧
    st' = {| S_ := S_ st;
             cache := written st k l i
                        {| valid := true; tag := t; lru := lru_count st |};
             lru_count := incr (lru_count st);
             hit_cnt := incr (hit_cnt st);
             miss_cnt := miss_cnt st;
             evict_cnt := evict_cnt st |}.
Proof. intros Hc [i Hi|i Hnc _|i Hnc _ _]; [by exists i|done..]. Qed.

Lemma access_step_fill_inv st t k (l : cache_set_t) st' :
  ¬ cached t l → ¬ full l → access_step st t k l st' →
  ∃ i, first_with (λ ln, valid ln = false) l i ∧
    st' = {| S_ := S_ st;
             cache := written st k l i
                        {| valid := true; tag := t; lru := lru_count st |};
             lru_count := lru_count st;
             hit_cnt := hit_cnt st;
             miss_cnt := incr (miss_cnt st);
             evict_cnt := evict_cnt st |}.
Proof.
  intros Hnc Hnf [i Hi|i _ Hi|i _ Hfull _]; [|by exists i|done].
  by apply first_with_cached in Hi.
Qed.

Lemma access_step_evict_inv st t k (l : cache_set_t) st' :
  ¬ cached t l → full l → access_step st t k l st' →
  ∃ i, first_min l i ∧
    st' = {| S_ := S_ st;
             cache := written st k l i
                        {| valid := true; tag := t; lru := lru_count st |};
             lru_count := lru_count st;
             hit_cnt := hit_cnt st;
             miss_cnt := incr (miss_cnt st);
             evict_cnt := incr (evict_cnt st) |}.
Proof.
  intros Hnc Hfull [i Hi|i _ Hi|i _ _ Hi]; [| |by exists i].
  - by apply first_with_cached in Hi.
  - by apply first_invalid_not_full in Hi.
Qed.

(** After any access the set caches the tag that was accessed. *)
Lemma access_step_installs g st addr t k (l : cache_set_t) st' :
  selects g st addr t k l →
  access_step st t k l st' →
  ∃ l', selects g st' addr t k l' ∧ cached t l'.
Proof.
  intros (Hdec & Hk & Hl & Hlen & HE) Hstep.
  destruct (access_step_cache _ _ _ _ _ Hstep) as (_ & i & Hi & Hcache).
  exists (<[i := {| valid := true; tag := t; lru := lru_count st |}]> l).
  split.
  - split; [done|]. split; [done|]. split; [|by rewrite length_insert].
    rewrite Hcache. unfold written.
    apply list_lookup_insert_eq. by eapply lookup_lt_Some.
  - exists {| valid := true; tag := t; lru := lru_count st |}.
    split; [|done]. eapply list_elem_of_lookup_2.
    by apply list_lookup_insert_eq.
Qed.

(** ** No tag is cached twice *)

Lemma unique_tags_insert (l : cache_set_t) i t x :
  unique_tags l →
  (∀ j lj, j ≠ i → l !! j = Some lj → ¬ holds_tag t lj) →
  unique_tags (<[i := {| valid := true; tag := t; lru := x |}]> l).
Proof.
  intros Huniq Hother a c la lc Ha Hc Hva Hvc Htag.
  apply list_lookup_insert_Some in Ha as [(-> & <- & _)|[Hai Ha]];
    apply list_lookup_insert_Some in Hc as [(-> & <- & _)|[Hci Hc]];
    simpl in *.
  - done.
  - destruct (Hother c lc ltac:(done) Hc). by split.
  - destruct (Hother a la ltac:(done) Ha). by split.
  - by eapply Huniq.
Qed.

Lemma not_cached_no_line t (l : cache_set_t) j lj :
  ¬ cached t l → l !! j = Some lj → ¬ holds_tag t lj.
Proof.
  intros Hnc Hlj Hh. apply Hnc. exists lj. split; [|done].
  by eapply list_elem_of_lookup_2.
Qed.

Lemma access_step_unique_tags st t k (l : cache_set_t) st' :
  cache st !! Z.to_nat k = Some l →
  tags_unique st → access_step st t k l st' → tags_unique st'.
Proof.
  intros Hl Hall Hstep. unfold tags_unique in *.
  assert (Hu : unique_tags l) by (by eapply (Forall_lookup_1 _ _ _ _ Hall)).
  destruct Hstep as [i [(ln & Hi & Hv & Ht) _]|i Hnc _|i Hnc _ _]; simpl;
    unfold written; (apply Forall_insert; [done|]);
    apply unique_tags_insert; try done.
  - intros j lj Hji Hlj [Hvj Htj]. apply Hji.
    apply (Hu j i lj ln); congruence.
  - intros j lj _. by apply not_cached_no_line.
  - intros j lj _. by apply not_cached_no_line.
Qed.

Lemma init_cache_tags_unique malloc_ok g st st0 :
  init_cache malloc_ok g st = Some st0 → tags_unique st0.
Proof.
  intros (_ & Hcache & _)%init_cache_Some. unfold tags_unique.
  rewrite Hcache.
  apply Forall_replicate. intros i j li lj Hi _ Hv _ _.
  apply lookup_replicate in Hi as [-> _]. discriminate.
Qed.

Lemma access_data_unique_tags g st addr st' :
  shaped g st → tags_unique st → access_data g st addr = Some st' →
  shaped g st' ∧ tags_unique st'.
Proof.
  intros Hsets Hu Hacc.
  destruct (access_data_Some_selects g st addr st' Hsets Hacc)
    as (t & k & l & Hsel).
  destruct (access_data_step g st addr t k l Hsel) as (st'' & Hacc' & Hstep).
  assert (st'' = st') as -> by congruence.
  destruct Hsel as (_ & _ & Hl & _). split.
  - by eapply access_step_shaped.
  - by eapply access_step_unique_tags.
Qed.

(** ** Sequences of accesses *)

Lemma replay_trace_calls g st trace :
  replay_trace g st trace = access_seq g st (calls_of trace).
Proof.
  revert st. induction trace as [|[op addr] rest IH]; intros st; [done|].
  unfold calls_of in *. simpl.
  destruct (Ascii.eqb op "S" || Ascii.eqb op "L") eqn:Hsl.
  - rewrite orb_true_l. simpl.
    destruct (access_data g st addr) as [st'|]; [simpl|done]. apply IH.
  - rewrite orb_false_l. destruct (Ascii.eqb op "M"); simpl.
    + destruct (access_data g st addr) as [st1|]; [simpl|done].
      destruct (access_data g st1 addr) as [st2|]; [simpl|done]. apply IH.
    + apply IH.
Qed.

Lemma calls_of_addrs trace :
  Forall (λ r : trace_record, is_addr r.2) trace →
  Forall is_addr (calls_of trace).
Proof.
  unfold calls_of. induction 1 as [|[op addr] rest Ha _ IH]; [constructor|].
  simpl in *. apply Forall_app. split; [|done].
  destruct (Ascii.eqb op "S" || Ascii.eqb op "L");
    [|destruct (Ascii.eqb op "M")];
    repeat first [apply List.Forall_nil | apply List.Forall_cons; [done|]].
Qed.

Lemma access_seq_unique_tags g st addrs st' :
  shaped g st → tags_unique st → access_seq g st addrs = Some st' →
  tags_unique st'.
Proof.
  revert st. induction addrs as [|a rest IH]; intros st Hsets Hu; simpl.
  - by intros [= <-].
  - destruct (access_data g st a) as [st1|] eqn:Hacc; [simpl|done].
    destruct (access_data_unique_tags g st a st1 Hsets Hu Hacc).
    by apply IH.
Qed.

Lemma access_seq_valid g st addrs :
  valid_geometry g → well_formed g st → Forall is_addr addrs →
  ∃ st', access_seq g st addrs = Some st' ∧ well_formed g st'.
Proof.
  intros Hg Hwf Haddrs. revert st Hwf.
  induction Haddrs as [|a rest Ha _ IH]; intros st Hwf; simpl.
  - by exists st.
  - destruct (selected_set g st a Hg Hwf Ha) as (l & Hsel & _).
    destruct (access_data_step g st a _ _ l Hsel) as (st1 & -> & Hstep).
    simpl. apply IH. destruct Hsel as (_ & _ & Hl & _).
    by eapply access_step_well_formed.
Qed.

(** * The properties of the specification *)

Lemma g111_valid : valid_geometry g111.
Proof. unfold valid_geometry, g111, int_max. simpl. lia. Qed.

Lemma g121_valid : valid_geometry g121.
Proof. unfold valid_geometry, g121, int_max. simpl. lia. Qed.

(** ** Address decomposition *)

(** C6 (as stated, refuted): for the geometry [s = 32, E = 1, b = 1], whose
    arguments are positive and whose [s + b] is below the 64 bits of an
    address, the set index that [access_data] computes for the address
    [2^32] is the [int] [-2^31], while the reference formula
    [(address >> b) & (2^s - 1)] gives [2^31]. *)
Lemma decompose_differs_on_wide_geometry :
  (0 < s g_wide ∧ 0 < E g_wide ∧ 0 < b g_wide ∧ s g_wide + b g_wide < 64)%Z ∧
  is_addr (2 ^ 32) ∧
  decompose g_wide (2 ^ 32) = Some (0, - 2 ^ 31)%Z ∧
  spec_set_index g_wide (2 ^ 32) = (2 ^ 31)%Z ∧
  decompose g_wide (2 ^ 32) ≠
    Some (spec_tag g_wide (2 ^ 32), spec_set_index g_wide (2 ^ 32)).
Proof.
  split; [unfold g_wide; simpl; lia|].
  split; [unfold is_addr; lia|].
  split; [by vm_compute|]. split; [by vm_compute|].
  vm_compute. discriminate.
Qed.

(** C6 (amended): for every address and every geometry with positive [s],
    [E], [b], [s + b] below the address width and [s] at most 31 (so that the
    set index fits the [int] that holds it), the decomposition computed by
    [access_data] is the one of the reference formulas,
    [tag = address >> (s + b)] and [set_index = (address >> b) & (2^s - 1)];
    both are functions of the address and the geometry alone. *)
Theorem decompose_refines_spec (g : geometry) (addr : Z) :
  (0 < s g ≤ 31)%Z → (0 < E g)%Z → (0 < b g)%Z → (s g + b g < 64)%Z →
  is_addr addr →
  decompose g addr = Some (spec_tag g addr, spec_set_index g addr).
Proof.
  intros Hs _ Hb Hsb Ha. apply decompose_spec; [lia|lia|done|done].
Qed.

Lemma decompose_refines_spec_witness :
  decompose g111 8 = Some (spec_tag g111 8, spec_set_index g111 8).
Proof.
  apply (decompose_refines_spec g111 8);
    [simpl; lia | simpl; lia | simpl; lia | simpl; lia | unfold is_addr; lia].
Defined.

(** ** Bounds of the indices *)

(** C10 (as stated, refuted): for [s = 32, E = 1, b = 1] the set index of
    the address [2^32] is negative, [init_cache] computes [S = 0] and
    allocates no set, and the access reads outside the allocation. *)
Lemma wide_geometry_out_of_bounds :
  (0 < s g_wide ∧ 0 < E g_wide ∧ 0 < b g_wide ∧ s g_wide + b g_wide < 64)%Z ∧
  is_addr (2 ^ 32) ∧
  (∃ t k, decompose g_wide (2 ^ 32) = Some (t, k) ∧
          ¬ (0 ≤ k < 2 ^ s g_wide)%Z) ∧
  ∃ st0, init_cache malloc_always g_wide startup = Some st0 ∧
         S_ st0 = 0%Z ∧
         cache st0 = [] ∧
         access_data g_wide st0 (2 ^ 32) = None.
Proof.
  split; [unfold g_wide; simpl; lia|].
  split; [unfold is_addr; lia|]. split.
  - exists 0%Z, (- 2 ^ 31)%Z. split; [by vm_compute|]. lia.
  - eexists. split; [by vm_compute|]. repeat split; by vm_compute.
Qed.

(** C10 (amended): for every geometry with [s], [E], [b] positive, [s + b]
    below the address width and [s] at most 30 (so that [S = 2^s] is an
    [int]), [init_cache] allocates [2^s] sets of [E] lines, the set index of
    every address lies in [0, 2^s) and selects one of these sets, and every
    sequence of accesses runs to its end: no scan reads or writes outside
    the allocation. *)
Theorem access_within_bounds malloc_ok (g : geometry) (st st0 : state)
    (addrs : list Z) :
  valid_geometry g →
  init_cache malloc_ok g st = Some st0 →
  Forall is_addr addrs →
  (length (cache st0) = Z.to_nat (2 ^ s g) ∧
   Forall (λ l : cache_set_t, length l = Z.to_nat (E g)) (cache st0)) ∧
  (∀ addr, is_addr addr →
     ∃ t k, decompose g addr = Some (t, k) ∧ (0 ≤ k < 2 ^ s g)%Z ∧
            is_Some (cache st0 !! Z.to_nat k)) ∧
  ∃ st', access_seq g st0 addrs = Some st' ∧ well_formed g st'.
Proof.
  intros Hg Hinit Haddrs.
  assert (Hwf : well_formed g st0).
  { apply (init_cache_well_formed malloc_ok g st); [destruct Hg; lia|done]. }
  split; [|split].
  - destruct Hwf as (HS & Hlen & Hsets). by rewrite Hlen, HS.
  - intros addr Ha.
    destruct (selected_set g st0 addr Hg Hwf Ha)
      as (l & (Hdec & Hk & Hl & _) & Hlt).
    eauto 7.
  - by apply access_seq_valid.
Qed.

Lemma access_within_bounds_witness :
  (length (cache st111_empty) = Z.to_nat (2 ^ s g111) ∧
   Forall (λ l : cache_set_t, length l = Z.to_nat (E g111))
     (cache st111_empty)) ∧
  (∀ addr, is_addr addr →
     ∃ t k, decompose g111 addr = Some (t, k) ∧ (0 ≤ k < 2 ^ s g111)%Z ∧
            is_Some (cache st111_empty !! Z.to_nat k)) ∧
  ∃ st', access_seq g111 st111_empty [0; 8]%Z = Some st' ∧
         well_formed g111 st'.
Proof.
  apply (access_within_bounds malloc_always g111 startup st111_empty [0; 8]%Z).
  - apply g111_valid.
  - reflexivity.
  - repeat constructor; unfold is_addr; lia.
Defined.

(** ** The three paths of one access *)

(** C4 (as stated, refuted): in the cache of [-s 1 -E 1 -b 1] whose set 0
    caches tag 0 with the clock at 0 (the fresh cache after the access of
    address 0), the access of address 0 is a hit that advances the clock
    to 1 and leaves the stamp 0 on the line: the line does not carry the new
    clock value. *)
Lemma hit_stamp_is_not_new_clock :
  ∃ st',
    access_data g111 st111_empty 0 = Some st111_tag0 ∧
    access_data g111 st111_tag0 0 = Some st' ∧
    hit_cnt st' = (hit_cnt st111_tag0 + 1)%Z ∧
    lru_count st' = 1%Z ∧
    ∃ ln, line_at (cache st') 0 0 = Some ln ∧
          lru ln = 0%Z ∧ lru ln ≠ lru_count st'.
Proof.
  eexists. split; [by vm_compute|]. split; [by vm_compute|].
  split; [by vm_compute|]. split; [by vm_compute|].
  eexists. split; [by vm_compute|]. by split.
Qed.

(** C4 (amended): if some line of the selected set is valid with the
    decomposed tag, [access_data] increments the hit counter, advances the
    clock by one and gives the first such line, in storage order, the value
    the clock had before it advanced; the line keeps its valid bit and tag,
    the miss and eviction counters and every other line are unchanged.
    (The two counters that move are below [INT_MAX], where the C increment
    is defined.) *)
Theorem access_data_hit (g : geometry) (st : state) (addr t k : Z)
    (l : cache_set_t) :
  selects g st addr t k l →
  cached t l →
  (int_min ≤ hit_cnt st < int_max)%Z →
  (int_min ≤ lru_count st < int_max)%Z →
  ∃ i st',
    access_data g st addr = Some st' ∧
    first_with (holds_tag t) l i ∧
    hit_cnt st' = (hit_cnt st + 1)%Z ∧
    lru_count st' = (lru_count st + 1)%Z ∧
    line_at (cache st') k i =
      Some {| valid := true; tag := t; lru := lru_count st |} ∧
    miss_cnt st' = miss_cnt st ∧
    evict_cnt st' = evict_cnt st ∧
    ∀ k' i', k' ≠ k ∨ i' ≠ i →
      line_at (cache st') k' i' = line_at (cache st) k' i'.
Proof.
  intros Hsel Hc Hhit Hclk.
  destruct (access_data_step g st addr t k l Hsel) as (st' & Hacc & Hstep).
  destruct Hsel as (_ & Hk & Hl & _).
  destruct (access_step_hit_inv _ _ _ _ _ Hc Hstep) as (i & Hfirst & ->).
  destruct Hfirst as [(ln & Hi & Hln) Hbefore].
  exists i. eexists. split; [done|]. split; [by split; [exists ln|]|]. simpl.
  split; [apply incr_exact; unfold is_int; lia|].
  split; [apply incr_exact; unfold is_int; lia|].
  split; [apply written_line_at; [done..|by eapply lookup_lt_Some]|].
  split; [done|]. split; [done|].
  intros k' i' Hne. by apply written_line_at_other.
Qed.

Lemma access_data_hit_witness :
  ∃ i st',
    access_data g111 st111_tag0 0 = Some st' ∧
    first_with (holds_tag 0) [{| valid := true; tag := 0; lru := 0 |}] i ∧
    hit_cnt st' = (hit_cnt st111_tag0 + 1)%Z ∧
    lru_count st' = (lru_count st111_tag0 + 1)%Z ∧
    line_at (cache st') 0 i =
      Some {| valid := true; tag := 0; lru := lru_count st111_tag0 |} ∧
    miss_cnt st' = miss_cnt st111_tag0 ∧
    evict_cnt st' = evict_cnt st111_tag0 ∧
    ∀ k' i', k' ≠ 0%Z ∨ i' ≠ i →
      line_at (cache st') k' i' = line_at (cache st111_tag0) k' i'.
Proof.
  apply (access_data_hit g111 st111_tag0 0 0 0
           [{| valid := true; tag := 0; lru := 0 |}]).
  - repeat split; simpl; lia.
  - exists {| valid := true; tag := 0; lru := 0 |}.
    split; [apply list_elem_of_here|by split].
  - unfold int_min, int_max. simpl. lia.
  - unfold int_min, int_max. simpl. lia.
Defined.

(** C5 (as stated, refuted): in the empty cache of [-s 1 -E 1 -b 1] with the
    clock at 0, the access of address 0 fills line 0 of set 0 and stamps it
    with 0, the value of the clock before the access, not with the advanced
    value 1. *)
Lemma fill_stamp_is_not_advanced_clock :
  ∃ st',
    init_cache malloc_always g111 startup = Some st111_empty ∧
    access_data g111 st111_empty 0 = Some st' ∧
    miss_cnt st' = (miss_cnt st111_empty + 1)%Z ∧
    evict_cnt st' = evict_cnt st111_empty ∧
    ∃ ln, line_at (cache st') 0 0 = Some ln ∧ valid ln = true ∧
          lru ln = lru_count st111_empty ∧
          lru ln ≠ (lru_count st111_empty + 1)%Z.
Proof.
  eexists. split; [by vm_compute|]. split; [by vm_compute|].
  split; [by vm_compute|]. split; [by vm_compute|].
  eexists. split; [by vm_compute|]. by repeat split.
Qed.

(** C5 (amended): if no line of the selected set is valid with the decomposed
    tag and some line is not valid, [access_data] increments the miss
    counter and fills the first invalid line in storage order: the line
    becomes valid, takes the decomposed tag and takes as recency the value
    the clock has when the access begins; the eviction and hit counters and
    every other line are unchanged. (The miss counter is below [INT_MAX].) *)
Theorem access_data_fill (g : geometry) (st : state) (addr t k : Z)
    (l : cache_set_t) :
  selects g st addr t k l →
  ¬ cached t l →
  (∃ ln, ln ∈ l ∧ valid ln = false) →
  (int_min ≤ miss_cnt st < int_max)%Z →
  ∃ i st',
    access_data g st addr = Some st' ∧
    first_with (λ ln, valid ln = false) l i ∧
    miss_cnt st' = (miss_cnt st + 1)%Z ∧
    line_at (cache st') k i =
      Some {| valid := true; tag := t; lru := lru_count st |} ∧
    evict_cnt st' = evict_cnt st ∧
    hit_cnt st' = hit_cnt st ∧
    ∀ k' i', k' ≠ k ∨ i' ≠ i →
      line_at (cache st') k' i' = line_at (cache st) k' i'.
Proof.
  intros Hsel Hnc (ln & Hin & Hinv) Hmiss.
  destruct (access_data_step g st addr t k l Hsel) as (st' & Hacc & Hstep).
  destruct Hsel as (_ & Hk & Hl & _).
  assert (Hnf : ¬ full l).
  { intros Hfull. rewrite (Hfull ln Hin) in Hinv. discriminate. }
  destruct (access_step_fill_inv _ _ _ _ _ Hnc Hnf Hstep) as (i & Hfirst & ->).
  destruct Hfirst as [(li & Hi & Hli) Hbefore].
  exists i. eexists. split; [done|]. split; [by split; [exists li|]|]. simpl.
  split; [apply incr_exact; unfold is_int; lia|].
  split; [apply written_line_at; [done..|by eapply lookup_lt_Some]|].
  split; [done|]. split; [done|].
  intros k' i' Hne. by apply written_line_at_other.
Qed.

Lemma access_data_fill_witness :
  ∃ i st',
    access_data g111 st111_empty 0 = Some st' ∧
    first_with (λ ln, valid ln = false) [empty_line] i ∧
    miss_cnt st' = (miss_cnt st111_empty + 1)%Z ∧
    line_at (cache st') 0 i =
      Some {| valid := true; tag := 0; lru := lru_count st111_empty |} ∧
    evict_cnt st' = evict_cnt st111_empty ∧
    hit_cnt st' = hit_cnt st111_empty ∧
    ∀ k' i', k' ≠ 0%Z ∨ i' ≠ i →
      line_at (cache st') k' i' = line_at (cache st111_empty) k' i'.
Proof.
  apply (access_data_fill g111 st111_empty 0 0 0 [empty_line]).
  - repeat split; simpl; lia.
  - intros (ln & Hin & Hv & _). apply list_elem_of_singleton in Hin.
    subst ln. discriminate.
  - exists empty_line. split; [apply list_elem_of_here|reflexivity].
  - unfold int_min, int_max. simpl. lia.
Defined.

(** C3 (as stated, refuted): in the cache of [-s 1 -E 1 -b 1] whose set 0 is
    full with tag 0 and the clock at 0 (the fresh cache after the access of
    address 0), the access of address 8 (tag 2, set 0) replaces the line and
    stamps it with 0, the value of the clock before the access, not with the
    advanced value 1. *)
Lemma evict_stamp_is_not_advanced_clock :
  ∃ st',
    access_data g111 st111_empty 0 = Some st111_tag0 ∧
    access_data g111 st111_tag0 8 = Some st' ∧
    evict_cnt st' = (evict_cnt st111_tag0 + 1)%Z ∧
    ∃ ln, line_at (cache st') 0 0 = Some ln ∧ tag ln = 2%Z ∧
          lru ln = lru_count st111_tag0 ∧
          lru ln ≠ (lru_count st111_tag0 + 1)%Z.
Proof.
  eexists. split; [by vm_compute|]. split; [by vm_compute|].
  split; [by vm_compute|].
  eexists. split; [by vm_compute|]. by repeat split.
Qed.

(** C3 (amended): on an access to a full set with no matching tag,
    [access_data] increments the eviction counter and selects among the [E]
    lines of the set the line with the smallest recency, the lowest slot on
    a tie (the first minimum of a scan in storage order); that line takes
    the decomposed tag and, as recency, the value the clock has when the
    access begins, and stays valid; every other line is unchanged. (The
    eviction counter is below [INT_MAX].) *)
Theorem access_data_evict (g : geometry) (st : state) (addr t k : Z)
    (l : cache_set_t) :
  selects g st addr t k l →
  ¬ cached t l →
  full l →
  (int_min ≤ evict_cnt st < int_max)%Z →
  ∃ i st',
    access_data g st addr = Some st' ∧
    first_min l i ∧
    evict_cnt st' = (evict_cnt st + 1)%Z ∧
    line_at (cache st') k i =
      Some {| valid := true; tag := t; lru := lru_count st |} ∧
    ∀ k' i', k' ≠ k ∨ i' ≠ i →
      line_at (cache st') k' i' = line_at (cache st) k' i'.
Proof.
  intros Hsel Hnc Hfull Hev.
  destruct (access_data_step g st addr t k l Hsel) as (st' & Hacc & Hstep).
  destruct Hsel as (_ & Hk & Hl & _).
  destruct (access_step_evict_inv _ _ _ _ _ Hnc Hfull Hstep)
    as (i & Hmin & ->).
  destruct Hmin as (li & Hi & Hle & Hlt).
  exists i. eexists. split; [done|]. split; [by exists li|]. simpl.
  split; [apply incr_exact; unfold is_int; lia|].
  split; [apply written_line_at; [done..|by eapply lookup_lt_Some]|].
  intros k' i' Hne. by apply written_line_at_other.
Qed.

Lemma access_data_evict_witness :
  ∃ i st',
    access_data g111 st111_tag0 8 = Some st' ∧
    first_min [{| valid := true; tag := 0; lru := 0 |}] i ∧
    evict_cnt st' = (evict_cnt st111_tag0 + 1)%Z ∧
    line_at (cache st') 0 i =
      Some {| valid := true; tag := 2; lru := lru_count st111_tag0 |} ∧
    ∀ k' i', k' ≠ 0%Z ∨ i' ≠ i →
      line_at (cache st') k' i' = line_at (cache st111_tag0) k' i'.
Proof.
  apply (access_data_evict g111 st111_tag0 8 2 0
           [{| valid := true; tag := 0; lru := 0 |}]).
  - repeat split; simpl; lia.
  - intros (ln & Hin & _ & Ht). apply list_elem_of_singleton in Hin.
    subst ln. discriminate.
  - intros ln Hin. apply list_elem_of_singleton in Hin. by subst ln.
  - unfold int_min, int_max. simpl. lia.
Defined.

(** ** The recency clock *)

(** C2 (the code departs from it): in the fresh cache of [-s 1 -E 1 -b 1]
    the accesses of addresses 0, 8 and 8 are a fill, a replacement and a
    hit. The clock, 0 at the start, is still 0 after the fill and after the
    replacement, and is 1 only after the hit: of the three completed
    accesses only the hit advances it, so that after one, two and three
    calls it is 0, 0 and 1 and not 1, 2 and 3. The line written by the fill
    and the line written by the replacement both carry the stamp 0. *)
Theorem clock_not_advanced_by_fill_or_replacement :
  ∃ st0 st1 st2 st3,
    init_cache malloc_always g111 startup = Some st0 ∧
    lru_count st0 = 0%Z ∧
    access_data g111 st0 0 = Some st1 ∧
    (hit_cnt st1, miss_cnt st1, evict_cnt st1) = (0, 1, 0)%Z ∧
    lru_count st1 = 0%Z ∧
    line_at (cache st1) 0 0 = Some {| valid := true; tag := 0; lru := 0 |} ∧
    access_data g111 st1 8 = Some st2 ∧
    (hit_cnt st2, miss_cnt st2, evict_cnt st2) = (0, 2, 1)%Z ∧
    lru_count st2 = 0%Z ∧
    line_at (cache st2) 0 0 = Some {| valid := true; tag := 2; lru := 0 |} ∧
    access_data g111 st2 8 = Some st3 ∧
    (hit_cnt st3, miss_cnt st3, evict_cnt st3) = (1, 2, 1)%Z ∧
    lru_count st3 = 1%Z ∧
    access_seq g111 st0 [0; 8; 8]%Z = Some st3 ∧
    lru_count st3 ≠ Z.of_nat (length [0; 8; 8]%Z).
Proof.
  do 4 eexists.
  repeat (split; [by vm_compute|]). by vm_compute.
Qed.

(** ** Modify records *)

(** C7: for every cache state and every address that selects a set of the
    cache, the two back-to-back calls of [access_data] that [replay_trace]
    makes for a Modify record make the second call a hit (the hit counter
    moves by one, the miss and eviction counters do not move); if the tag
    was not cached in the selected set before the first call, the first
    call is a miss (one miss, no hit) and it counts one eviction if the set
    was full and none otherwise. (The counters are far enough below
    [INT_MAX] for the C increments to be defined.) *)
Theorem modify_record_miss_then_hit (g : geometry) (st : state)
    (addr t k : Z) (l : cache_set_t) :
  selects g st addr t k l →
  (int_min ≤ hit_cnt st ∧ hit_cnt st + 1 < int_max)%Z →
  (int_min ≤ miss_cnt st < int_max)%Z →
  (int_min ≤ evict_cnt st < int_max)%Z →
  ∃ st1 st2,
    access_data g st addr = Some st1 ∧
    access_data g st1 addr = Some st2 ∧
    replay_record g st ("M"%char, addr) = Some st2 ∧
    (hit_cnt st2 = (hit_cnt st1 + 1)%Z ∧
     miss_cnt st2 = miss_cnt st1 ∧
     evict_cnt st2 = evict_cnt st1) ∧
    (¬ cached t l →
       hit_cnt st1 = hit_cnt st ∧
       miss_cnt st1 = (miss_cnt st + 1)%Z ∧
       (full l → evict_cnt st1 = (evict_cnt st + 1)%Z) ∧
       (¬ full l → evict_cnt st1 = evict_cnt st)).
Proof.
  intros Hsel Hhit Hmiss Hev.
  destruct (access_data_step g st addr t k l Hsel) as (st1 & Hacc1 & Hstep1).
  destruct (access_step_installs g st addr t k l st1 Hsel Hstep1)
    as (l1 & Hsel1 & Hc1).
  destruct (access_data_step g st1 addr t k l1 Hsel1)
    as (st2 & Hacc2 & Hstep2).
  destruct (access_step_hit_inv _ _ _ _ _ Hc1 Hstep2) as (j & _ & Hst2).
  exists st1, st2.
  split; [done|]. split; [done|].
  split. { simpl. rewrite Hacc1. simpl. done. }
  assert (Hh1 : (int_min ≤ hit_cnt st1 < int_max)%Z).
  { destruct Hstep1; simpl; [|lia..].
    rewrite incr_exact; unfold is_int; lia. }
  split.
  - rewrite Hst2. simpl. split; [|done].
    apply incr_exact; unfold is_int; lia.
  - intros Hnc. split; [|split; [|split]].
    + destruct Hstep1 as [i Hi| |]; [|done..].
      by apply first_with_cached in Hi.
    + destruct Hstep1 as [i Hi| |]; simpl.
      * by apply first_with_cached in Hi.
      * apply incr_exact; unfold is_int; lia.
      * apply incr_exact; unfold is_int; lia.
    + intros Hfull.
      destruct (access_step_evict_inv _ _ _ _ _ Hnc Hfull Hstep1)
        as (i & _ & ->).
      simpl. apply incr_exact; unfold is_int; lia.
    + intros Hnf.
      by destruct (access_step_fill_inv _ _ _ _ _ Hnc Hnf Hstep1)
        as (i & _ & ->).
Qed.

Lemma modify_record_miss_then_hit_witness :
  ∃ st1 st2,
    access_data g111 st111_tag0 8 = Some st1 ∧
    access_data g111 st1 8 = Some st2 ∧
    replay_record g111 st111_tag0 ("M"%char, 8%Z) = Some st2 ∧
    (hit_cnt st2 = (hit_cnt st1 + 1)%Z ∧
     miss_cnt st2 = miss_cnt st1 ∧
     evict_cnt st2 = evict_cnt st1) ∧
    (¬ cached 2 [{| valid := true; tag := 0; lru := 0 |}] →
       hit_cnt st1 = hit_cnt st111_tag0 ∧
       miss_cnt st1 = (miss_cnt st111_tag0 + 1)%Z ∧
       (full [{| valid := true; tag := 0; lru := 0 |}] →
          evict_cnt st1 = (evict_cnt st111_tag0 + 1)%Z) ∧
       (¬ full [{| valid := true; tag := 0; lru := 0 |}] →
          evict_cnt st1 = evict_cnt st111_tag0)).
Proof.
  apply (modify_record_miss_then_hit g111 st111_tag0 8 2 0
           [{| valid := true; tag := 0; lru := 0 |}]).
  - repeat split; simpl; lia.
  - unfold int_min, int_max. simpl. lia.
  - unfold int_min, int_max. simpl. lia.
  - unfold int_min, int_max. simpl. lia.
Defined.

(** ** Uniqueness of cached tags *)

(** C9: after [init_cache] and any trace (any sequence of [access_data]
    calls), no set holds two distinct valid lines with the same tag: the
    invariant holds in the initial cache; every state that a trace ends in
    satisfies it; every single access, whichever path it takes, preserves
    it; and for a valid geometry every trace does run to its end. *)
Theorem tags_stay_unique malloc_ok (g : geometry) (st st0 : state) :
  init_cache malloc_ok g st = Some st0 →
  tags_unique st0 ∧
  (∀ trace st', replay_trace g st0 trace = Some st' → tags_unique st') ∧
  (∀ st1 addr st2,
     shaped g st1 → tags_unique st1 → access_data g st1 addr = Some st2 →
     tags_unique st2) ∧
  (valid_geometry g →
   ∀ trace, Forall (λ r : trace_record, is_addr r.2) trace →
     is_Some (replay_trace g st0 trace)).
Proof.
  intros Hinit.
  pose proof (init_cache_tags_unique _ _ _ _ Hinit) as Hu0.
  pose proof (init_cache_shaped _ _ _ _ Hinit) as Hsh0.
  split; [done|]. split; [|split].
  - intros trace st'. rewrite replay_trace_calls.
    by apply access_seq_unique_tags.
  - intros st1 addr st2 Hsh1 Hu1 Hacc.
    by destruct (access_data_unique_tags g st1 addr st2 Hsh1 Hu1 Hacc).
  - intros Hg trace Htrace. rewrite replay_trace_calls.
    assert (Hwf0 : well_formed g st0).
    { apply (init_cache_well_formed malloc_ok g st);
        [destruct Hg; lia|done]. }
    destruct (access_seq_valid g st0 (calls_of trace) Hg Hwf0)
      as (st' & -> & _); [by apply calls_of_addrs|done].
Qed.

Lemma tags_stay_unique_witness :
  tags_unique st111_empty ∧
  (∀ trace st', replay_trace g111 st111_empty trace = Some st' →
     tags_unique st') ∧
  (∀ st1 addr st2,
     shaped g111 st1 → tags_unique st1 →
     access_data g111 st1 addr = Some st2 → tags_unique st2) ∧
  (valid_geometry g111 →
   ∀ trace, Forall (λ r : trace_record, is_addr r.2) trace →
     is_Some (replay_trace g111 st111_empty trace)).
Proof.
  apply (tags_stay_unique malloc_always g111 startup st111_empty).
  reflexivity.
Defined.

(** ** Accesses that fit in one set *)

Lemma add_tag_length ts t :
  length (add_tag ts t) =
    if decide (t ∈ ts) then length ts else S (length ts).
Proof.
  unfold add_tag. case_decide; [done|]. rewrite length_app. simpl. lia.
Qed.

Lemma seen_tags_length_le ts tags : length ts ≤ length (seen_tags ts tags).
Proof.
  revert ts. induction tags as [|t tags IH]; intros ts; simpl; [done|].
  etrans; [|apply IH]. rewrite add_tag_length. case_decide; lia.
Qed.

Lemma seen_tags_NoDup ts tags : NoDup ts → NoDup (seen_tags ts tags).
Proof.
  revert ts. induction tags as [|t tags IH]; intros ts Hts; simpl; [done|].
  apply IH. unfold add_tag. case_decide; [done|].
  apply NoDup_app. split; [done|]. split; [|apply NoDup_singleton].
  intros x Hx ->%list_elem_of_singleton. done.
Qed.

Lemma seen_tags_elem_of ts tags x :
  x ∈ seen_tags ts tags ↔ x ∈ ts ∨ x ∈ tags.
Proof.
  revert ts. induction tags as [|t tags IH]; intros ts; simpl.
  - rewrite elem_of_nil. tauto.
  - rewrite IH, elem_of_cons. unfold add_tag. case_decide.
    + split; [tauto|]. intros [?|[->|?]]; tauto.
    + rewrite elem_of_app, list_elem_of_singleton. tauto.
Qed.

Lemma seen_tags_distinct tags :
  length (seen_tags [] tags) = length (remove_dups tags).
Proof.
  apply Permutation_length, NoDup_Permutation.
  - apply seen_tags_NoDup, NoDup_nil_2.
  - apply NoDup_remove_dups.
  - intros x. rewrite seen_tags_elem_of, elem_of_remove_dups, elem_of_nil.
    tauto.
Qed.

Section one_set.
Variable n : nat.
Variable ts : list Z.
Variable l : cache_set_t.
Hypothesis Hholds : set_holds n ts l.
Hypothesis Hlen : length l = n.

Lemma set_holds_cached t : cached t l ↔ t ∈ ts.
Proof.
  split.
  - intros (ln & Hin & Hv & Ht).
    apply (list_elem_of_fmap_2 line_key) in Hin.
    rewrite Hholds in Hin. unfold line_key in Hin. rewrite Hv, Ht in Hin.
    apply elem_of_app in Hin as [Hin|Hin].
    + apply list_elem_of_fmap in Hin as (y & [= ->] & Hy). done.
    + apply elem_of_replicate_inv in Hin. discriminate.
  - intros Hin.
    assert (Hk : (true, t) ∈ line_key <$> l).
    { rewrite Hholds. apply elem_of_app. left.
      by apply list_elem_of_fmap_2. }
    apply list_elem_of_fmap in Hk as (ln & Hkey & Hln).
    exists ln. split; [done|]. unfold line_key in Hkey.
    injection Hkey as Hv Ht. by split.
Qed.

Lemma set_holds_valid j lj :
  l !! j = Some lj → valid lj = true ↔ j < length ts.
Proof.
  intros Hj.
  assert (Hkey : (line_key <$> l) !! j = Some (line_key lj)).
  { by rewrite list_lookup_fmap, Hj. }
  rewrite Hholds in Hkey.
  destruct (decide (j < length ts)) as [Hlt|Hge].
  - rewrite lookup_app_l in Hkey by (by rewrite length_fmap).
    rewrite list_lookup_fmap in Hkey.
    destruct (ts !! j) as [t|]; simplify_eq/=.
    unfold line_key in Hkey. injection Hkey as <- _. done.
  - rewrite lookup_app_r in Hkey by (rewrite length_fmap; lia).
    apply lookup_replicate in Hkey as [Hkey _].
    unfold line_key in Hkey. injection Hkey as Hv _. rewrite Hv.
    split; [discriminate|lia].
Qed.

Lemma set_holds_full : full l → n ≤ length ts.
Proof.
  intros Hfull. destruct (decide (n ≤ length ts)) as [|Hlt]; [done|].
  destruct (lookup_lt_is_Some_2 l (length ts) ltac:(lia)) as [lj Hj].
  assert (Hv : valid lj = true).
  { apply Hfull. by eapply list_elem_of_lookup_2. }
  apply (set_holds_valid _ _ Hj) in Hv. lia.
Qed.

Lemma set_holds_first_invalid i :
  first_with (λ ln, valid ln = false) l i → i = length ts ∧ i < n.
Proof.
  intros [(ln & Hi & Hinv) Hbefore].
  pose proof (lookup_lt_Some _ _ _ Hi) as Hlt.
  assert (Hge : ¬ i < length ts).
  { intros Hv%(set_holds_valid _ _ Hi). congruence. }
  split; [|lia].
  destruct (decide (i = length ts)) as [|Hne]; [done|].
  destruct (lookup_lt_is_Some_2 l (length ts) ltac:(lia)) as [lj Hj].
  destruct (valid lj) eqn:Hv.
  - apply (set_holds_valid _ _ Hj) in Hv. lia.
  - destruct (Hbefore (length ts) lj ltac:(lia) Hj Hv).
Qed.

Lemma set_holds_hit t i x :
  first_with (holds_tag t) l i →
  set_holds n ts (<[i := {| valid := true; tag := t; lru := x |}]> l).
Proof.
  intros [(ln & Hi & Hv & Ht) _]. unfold set_holds.
  rewrite list_fmap_insert, list_insert_id; [done|].
  rewrite list_lookup_fmap, Hi. destruct ln as [v t' x']. simpl in *.
  by subst.
Qed.

Lemma set_holds_fill t x :
  length ts < n →
  set_holds n (ts ++ [t])
    (<[length ts := {| valid := true; tag := t; lru := x |}]> l).
Proof.
  intros Hlt. unfold set_holds.
  rewrite list_fmap_insert, Hholds.
  rewrite insert_app_r_alt by (by rewrite length_fmap).
  rewrite length_fmap, Nat.sub_diag, length_app. simpl.
  replace (n - length ts) with (S (n - (length ts + 1))) by lia.
  rewrite replicate_S. simpl.
  by rewrite fmap_snoc, <- app_assoc.
Qed.
End one_set.

Lemma access_step_within_capacity n ts st t k (l : cache_set_t) st' :
  (Z.of_nat n ≤ int_max)%Z →
  cache st !! Z.to_nat k = Some l →
  length l = n →
  set_holds n ts l →
  length (add_tag ts t) ≤ n →
  evict_cnt st = 0%Z →
  miss_cnt st = Z.of_nat (length ts) →
  access_step st t k l st' →
  (∃ l', cache st' !! Z.to_nat k = Some l' ∧ set_holds n (add_tag ts t) l') ∧
  evict_cnt st' = 0%Z ∧
  miss_cnt st' = Z.of_nat (length (add_tag ts t)).
Proof.
  intros Hn Hl Hlen Hholds Hcap Hev Hmiss Hstep.
  pose proof (lookup_lt_Some _ _ _ Hl) as Hk.
  rewrite add_tag_length in Hcap. unfold add_tag.
  destruct Hstep as [i Hfirst|i Hnc Hfirst|i Hnc Hfull _]; simpl; unfold written.
  - (* hit: the tag has been seen *)
    pose proof (first_with_cached _ _ _ Hfirst) as Hc.
    apply (set_holds_cached n ts l Hholds) in Hc.
    rewrite decide_True by done. split; [|done].
    eexists. split; [by apply list_lookup_insert_eq|].
    by apply set_holds_hit.
  - (* fill: a new tag takes the next line *)
    assert (Hnew : t ∉ ts).
    { intros Hin. by apply Hnc, (set_holds_cached n ts l Hholds). }
    rewrite decide_False in Hcap by done. rewrite decide_False by done.
    destruct (set_holds_first_invalid n ts l Hholds Hlen i Hfirst) as [-> Hlt].
    split; [|split; [done|]].
    + eexists. split; [by apply list_lookup_insert_eq|].
      by apply set_holds_fill.
    + rewrite Hmiss, length_app. simpl. unfold incr. rewrite to_int_id.
      * lia.
      * unfold is_int, int_min, int_max in *. lia.
  - (* a replacement needs more tags than lines *)
    assert (Hnew : t ∉ ts).
    { intros Hin. by apply Hnc, (set_holds_cached n ts l Hholds). }
    rewrite decide_False in Hcap by done.
    pose proof (set_holds_full n ts l Hholds Hlen Hfull). lia.
Qed.

Lemma access_seq_within_capacity g k addrs tags :
  (0 ≤ k)%Z → (0 < E g ≤ int_max)%Z →
  Forall2 (λ a t, decompose g a = Some (t, k)) addrs tags →
  ∀ st ts,
    shaped g st →
    (∃ l, cache st !! Z.to_nat k = Some l ∧
          set_holds (Z.to_nat (E g)) ts l) →
    length (seen_tags ts tags) ≤ Z.to_nat (E g) →
    evict_cnt st = 0%Z →
    miss_cnt st = Z.of_nat (length ts) →
    ∃ st', access_seq g st addrs = Some st' ∧
           evict_cnt st' = 0%Z ∧
           miss_cnt st' = Z.of_nat (length (seen_tags ts tags)).
Proof.
  intros Hk HE. induction 1 as [|a t addrs tags Hdec _ IH];
    intros st ts Hsets (l & Hl & Hholds) Hcap Hev Hmiss; simpl in *.
  - by exists st.
  - assert (Hlen : length l = Z.to_nat (E g)).
    { by eapply (Forall_lookup_1 _ _ _ _ Hsets). }
    destruct (access_data_step g st a t k l) as (st1 & -> & Hstep).
    { split; [done|]. split; [done|]. split; [done|]. split; [done|lia]. }
    simpl.
    destruct (access_step_within_capacity (Z.to_nat (E g)) ts st t k l st1)
      as (Hl1 & Hev1 & Hmiss1); try done.
    { lia. }
    { etrans; [apply seen_tags_length_le|done]. }
    apply IH; try done.
    by eapply access_step_shaped.
Qed.

(** C8 (as stated, refuted): from the empty cache of [-s 1 -E 1 -b 1] the
    accesses of addresses 0 and 8 map to set 0 and carry the two tags 0 and
    2, that is [E + 1] distinct tags, and the second access counts an
    eviction. *)
Lemma eviction_with_one_more_tag_than_lines :
  ∃ st0 st,
    init_cache malloc_always g111 startup = Some st0 ∧
    decompose g111 0 = Some (0, 0)%Z ∧
    decompose g111 8 = Some (2, 0)%Z ∧
    (length (remove_dups [0; 2]%Z) ≤ Z.to_nat (E g111) + 1)%nat ∧
    access_seq g111 st0 [0; 8]%Z = Some st ∧
    miss_cnt st = 2%Z ∧
    evict_cnt st = 1%Z.
Proof.
  do 2 eexists. split; [by vm_compute|]. split; [by vm_compute|].
  split; [by vm_compute|]. split; [vm_compute; lia|].
  split; [by vm_compute|]. by split.
Qed.

(** C8 (amended): starting from an empty cache, for every sequence of
    accesses whose addresses map to a single set and carry [E] or fewer
    distinct tags, no eviction occurs: the sequence runs to its end, the
    eviction counter stays 0 and the miss counter is the number of distinct
    tags. *)
Theorem no_eviction_within_capacity malloc_ok (g : geometry) (st0 : state)
    (k : Z) (addrs tags : list Z) :
  valid_geometry g →
  init_cache malloc_ok g startup = Some st0 →
  Forall2 (λ a t, is_addr a ∧ decompose g a = Some (t, k)) addrs tags →
  length (remove_dups tags) ≤ Z.to_nat (E g) →
  ∃ st,
    access_seq g st0 addrs = Some st ∧
    evict_cnt st = 0%Z ∧
    miss_cnt st = Z.of_nat (length (remove_dups tags)).
Proof.
  intros Hg Hinit Haddrs Hcap.
  assert (Hwf : well_formed g st0).
  { apply (init_cache_well_formed malloc_ok g startup);
      [destruct Hg; lia|done]. }
  pose proof (init_cache_shaped _ _ _ _ Hinit) as Hsets.
  apply init_cache_Some in Hinit as (_ & Hcache & _ & _ & Hmiss & Hev).
  rewrite <- seen_tags_distinct in *.
  destruct addrs as [|a addrs].
  { apply Forall2_nil_inv_l in Haddrs as ->. by exists st0. }
  assert (Hk : (0 ≤ k)%Z ∧ is_Some (cache st0 !! Z.to_nat k)).
  { apply Forall2_cons_inv_l in Haddrs as (t & tags' & [Ha Hdec] & _ & _).
    destruct (selected_set g st0 a Hg Hwf Ha)
      as (l & (Hdec' & Hk & Hl & _) & _).
    rewrite Hdec in Hdec'. injection Hdec' as _ ->. eauto. }
  destruct Hk as [Hk [l Hl]].
  apply (access_seq_within_capacity g k (a :: addrs) tags);
    [done|by destruct Hg as (_ & ? & _)| |done| |done|done|done].
  - eapply Forall2_impl; [done|]. by intros ?? [_ ?].
  - exists l. split; [done|].
    rewrite Hcache in Hl. apply lookup_replicate in Hl as [-> _].
    unfold set_holds. rewrite fmap_replicate. simpl.
    by rewrite Nat.sub_0_r.
Qed.

Lemma no_eviction_within_capacity_witness :
  ∃ st,
    access_seq g121 {| S_ := 2;
                       cache := [[empty_line; empty_line];
                                 [empty_line; empty_line]];
                       lru_count := 0; hit_cnt := 0;
                       miss_cnt := 0; evict_cnt := 0 |}
      [0; 8; 0; 9]%Z = Some st ∧
    evict_cnt st = 0%Z ∧
    miss_cnt st = Z.of_nat (length (remove_dups [0; 2; 0; 2]%Z)).
Proof.
  apply (no_eviction_within_capacity malloc_always g121 _ 0
           [0; 8; 0; 9]%Z [0; 2; 0; 2]%Z).
  - apply g121_valid.
  - reflexivity.
  - repeat (apply List.Forall2_cons;
              [split; [unfold is_addr; lia|reflexivity]|]).
    apply List.Forall2_nil.
  - vm_compute. lia.
Defined.

(** ** Replacement order *)

(** C1 (the code departs from it): with [-s 1 -E 2 -b 1], the accesses of
    addresses 0, 4 and 0 fill set 0 with the tags 0 and 1 and then hit
    tag 0, so that the line of tag 1 is the one whose most recent access is
    the oldest. The miss on address 8 (tag 2) nevertheless replaces line 0,
    which holds tag 0, the most recently accessed tag: both lines carry the
    stamp 0 because the clock does not advance on a fill, and the scan keeps
    the first minimum. *)
Theorem replacement_evicts_most_recent_line :
  ∃ st0 st3 st4,
    init_cache malloc_always g121 startup = Some st0 ∧
    access_seq g121 st0 [0; 4; 0]%Z = Some st3 ∧
    cache st3 !! 0%nat =
      Some [{| valid := true; tag := 0; lru := 0 |};
            {| valid := true; tag := 1; lru := 0 |}] ∧
    last_use [0; 1; 0]%Z 0 = Some 2%nat ∧
    last_use [0; 1; 0]%Z 1 = Some 1%nat ∧
    decompose g121 8 = Some (2, 0)%Z ∧
    access_data g121 st3 8 = Some st4 ∧
    evict_cnt st4 = 1%Z ∧
    cache st4 !! 0%nat =
      Some [{| valid := true; tag := 2; lru := 1 |};
            {| valid := true; tag := 1; lru := 0 |}].
Proof.
  do 3 eexists. split; [by vm_compute|]. split; [by vm_compute|].
  split; [by vm_compute|]. split; [by vm_compute|]. split; [by vm_compute|].
  split; [by vm_compute|]. split; [by vm_compute|]. by split.
Qed.

(** * Further properties of the code *)

(** ** The number of sets *)

Lemma to_int_double z : to_int (to_int z * 2) = to_int (z * 2).
Proof.
  unfold to_int.
  rewrite (Z.mod_eq (z + 2 ^ 31) (2 ^ 32)) by lia.
  set (q := ((z + 2 ^ 31) / 2 ^ 32)%Z).
  replace ((z + 2 ^ 31 - 2 ^ 32 * q - 2 ^ 31) * 2 + 2 ^ 31)%Z
    with (z * 2 + 2 ^ 31 + (- (2 * q)) * 2 ^ 32)%Z by lia.
  by rewrite Z.mod_add by lia.
Qed.

Lemma compute_S_wraps g :
  compute_S g = to_int (2 ^ Z.of_nat (Z.to_nat (s g))).
Proof.
  unfold compute_S. induction (Z.to_nat (s g)) as [|n IH]; [done|].
  simpl Nat.iter. rewrite IH, to_int_double.
  by rewrite Nat2Z.inj_succ, Z.pow_succ_r, (Z.mul_comm 2) by lia.
Qed.

Lemma compute_S_cases g :
  compute_S g =
    if (s g <=? 0)%Z then 1%Z
    else if (s g <=? 30)%Z then (2 ^ s g)%Z
    else if (s g =? 31)%Z then (- 2 ^ 31)%Z
    else 0%Z.
Proof.
  rewrite compute_S_wraps.
  destruct (Z.leb_spec (s g) 0) as [Hle|Hpos].
  { by replace (Z.to_nat (s g)) with 0%nat by lia. }
  rewrite Z2Nat.id by lia.
  destruct (Z.leb_spec (s g) 30) as [H30|H31].
  { apply to_int_id. unfold is_int, int_min, int_max.
    assert (0 < 2 ^ s g)%Z by (apply Z.pow_pos_nonneg; lia).
    assert (2 ^ s g ≤ 2 ^ 30)%Z by (apply pow2_le_mono; lia). lia. }
  destruct (Z.eqb_spec (s g) 31) as [->|Hne]; [done|].
  replace (s g) with ((s g - 32) + 32)%Z by lia.
  rewrite Z.pow_add_r by lia. unfold to_int.
  rewrite Z.add_comm, Z.mod_add by lia. done.
Qed.

(** X1: the number of sets that [init_cache] allocates, for every value of
    [s]: one set when [s] is zero or negative (the doubling loop does not
    run), [2^s] sets for [s] from 1 to 30, and no set at all from [s = 31]
    on, where the [int] [S] has wrapped to [-2^31] or to 0. Every set that
    is allocated has [E] lines. *)
Theorem init_cache_set_count malloc_ok (g : geometry) (st st0 : state) :
  init_cache malloc_ok g st = Some st0 →
  shaped g st0 ∧
  S_ st0 = (if (s g <=? 0)%Z then 1%Z
            else if (s g <=? 30)%Z then (2 ^ s g)%Z
            else if (s g =? 31)%Z then (- 2 ^ 31)%Z
            else 0%Z) ∧
  length (cache st0) =
    (if (s g <=? 0)%Z then 1%nat
     else if (s g <=? 30)%Z then Z.to_nat (2 ^ s g)
     else 0%nat).
Proof.
  intros Hinit. split; [by eapply init_cache_shaped|].
  apply init_cache_Some in Hinit as (HS & Hcache & _).
  rewrite Hcache, length_replicate, HS, compute_S_cases.
  split; [done|]. repeat case_match; done.
Qed.

Lemma init_cache_set_count_witness :
  shaped g_wide
    {| S_ := 0; cache := []; lru_count := 0;
       hit_cnt := 0; miss_cnt := 0; evict_cnt := 0 |} ∧
  0%Z = (if (s g_wide <=? 0)%Z then 1%Z
         else if (s g_wide <=? 30)%Z then (2 ^ s g_wide)%Z
         else if (s g_wide =? 31)%Z then (- 2 ^ 31)%Z
         else 0%Z) ∧
  0%nat =
    (if (s g_wide <=? 0)%Z then 1%nat
     else if (s g_wide <=? 30)%Z then Z.to_nat (2 ^ s g_wide)
     else 0%nat).
Proof.
  apply (init_cache_set_count malloc_always g_wide startup
           {| S_ := 0; cache := []; lru_count := 0;
              hit_cnt := 0; miss_cnt := 0; evict_cnt := 0 |}).
  reflexivity.
Defined.

(** ** Blocks *)

Lemma access_data_decompose g st a a' :
  decompose g a = decompose g a' → access_data g st a = access_data g st a'.
Proof. unfold access_data. by intros ->. Qed.

Lemma div_pow2_split (x n : Z) :
  (0 ≤ n)%Z → (x = 2 ^ n * (x / 2 ^ n) + x mod 2 ^ n)%Z.
Proof.
  intros Hn. apply Z.div_mod.
  assert (0 < 2 ^ n)%Z by (apply Z.pow_pos_nonneg; lia). lia.
Qed.

(** X2: the block offset plays no part. For a geometry whose set index fits
    an [int] ([0 <= s <= 31], [b >= 0], [s + b < 64]), two addresses get the
    same tag and set index exactly when they lie in the same block (they
    agree above the low [b] bits), and then [access_data] does the same to
    every state for both. *)
Theorem same_block_same_access (g : geometry) (a a' : Z) :
  (0 ≤ s g ≤ 31)%Z → (0 ≤ b g)%Z → (s g + b g < 64)%Z →
  is_addr a → is_addr a' →
  (decompose g a = decompose g a' ↔ Z.shiftr a (b g) = Z.shiftr a' (b g)) ∧
  (Z.shiftr a (b g) = Z.shiftr a' (b g) →
   ∀ st, access_data g st a = access_data g st a').
Proof.
  intros Hs Hb Hsb Ha Ha'.
  assert (Hiff : decompose g a = decompose g a' ↔
                 Z.shiftr a (b g) = Z.shiftr a' (b g)).
  { rewrite (decompose_div_mod g a), (decompose_div_mod g a') by done.
    rewrite !Z.shiftr_div_pow2 by lia.
    assert (Hb2 : (0 < 2 ^ b g)%Z) by (apply Z.pow_pos_nonneg; lia).
    assert (Hs2 : (0 < 2 ^ s g)%Z) by (apply Z.pow_pos_nonneg; lia).
    assert (Htag : ∀ x, (x / 2 ^ (s g + b g) = x / 2 ^ b g / 2 ^ s g)%Z).
    { intros x. rewrite (Z.add_comm (s g)), Z.pow_add_r by lia.
      by rewrite Z.div_div by lia. }
    rewrite !Htag. split.
    - intros [= Ht Hk].
      rewrite (div_pow2_split (a / 2 ^ b g) (s g)) by lia.
      rewrite (div_pow2_split (a' / 2 ^ b g) (s g)) by lia.
      by rewrite Ht, Hk.
    - by intros ->. }
  split; [done|].
  intros Hblock st. by apply access_data_decompose, Hiff.
Qed.

Lemma same_block_same_access_witness :
  (decompose g121 8 = decompose g121 9 ↔
   Z.shiftr 8 (b g121) = Z.shiftr 9 (b g121)) ∧
  (Z.shiftr 8 (b g121) = Z.shiftr 9 (b g121) →
   ∀ st, access_data g121 st 8 = access_data g121 st 9).
Proof.
  apply (same_block_same_access g121 8 9);
    [simpl; lia | simpl; lia | simpl; lia
    | unfold is_addr; lia | unfold is_addr; lia].
Defined.

(** ** The first access *)

(** X3: the first access after [init_cache] is a cold miss, whatever the
    geometry and the address (as long as the address selects a set of the
    cache): it fills line 0 of the selected set with the tag and the stamp 0
    and leaves the counters at 0 hits, 1 miss and 0 evictions. *)
Theorem first_access_is_cold_miss malloc_ok (g : geometry) (st0 : state)
    (addr t k : Z) (l : cache_set_t) :
  init_cache malloc_ok g startup = Some st0 →
  selects g st0 addr t k l →
  ∃ st1,
    access_data g st0 addr = Some st1 ∧
    hit_cnt st1 = 0%Z ∧ miss_cnt st1 = 1%Z ∧ evict_cnt st1 = 0%Z ∧
    line_at (cache st1) k 0 = Some {| valid := true; tag := t; lru := 0 |} ∧
    ∀ k' i', k' ≠ k ∨ i' ≠ 0%nat →
      line_at (cache st1) k' i' = line_at (cache st0) k' i'.
Proof.
  intros Hinit Hsel.
  apply init_cache_Some in Hinit as (_ & Hcache & Hclk & Hh & Hm & He).
  destruct (access_data_step g st0 addr t k l Hsel) as (st1 & Hacc & Hstep).
  destruct Hsel as (_ & Hk & Hl & Hlen & HE).
  assert (Hlines : l = replicate (Z.to_nat (E g)) empty_line).
  { rewrite Hcache in Hl. by apply lookup_replicate in Hl as [-> _]. }
  assert (Hl0 : l !! 0%nat = Some empty_line).
  { rewrite Hlines. apply lookup_replicate. split; [done|lia]. }
  assert (Hnc : ¬ cached t l).
  { intros (ln & Hin & Hv & _). rewrite Hlines in Hin.
    apply elem_of_replicate_inv in Hin. by subst ln. }
  assert (Hnf : ¬ full l).
  { intros Hfull.
    assert (valid empty_line = true); [|done].
    apply Hfull. by eapply list_elem_of_lookup_2. }
  destruct (access_step_fill_inv _ _ _ _ _ Hnc Hnf Hstep)
    as (i & [_ Hbefore] & ->).
  assert (i = 0%nat) as ->.
  { destruct i as [|i]; [done|].
    destruct (Hbefore 0%nat empty_line ltac:(lia) Hl0). done. }
  eexists. split; [done|]. simpl. rewrite Hh, Hm, He, Hclk. simpl.
  split; [done|]. split; [done|]. split; [done|]. split.
  - apply written_line_at; [done..|]. by eapply lookup_lt_Some.
  - intros k' i' Hne. by apply written_line_at_other.
Qed.

Lemma first_access_is_cold_miss_witness :
  ∃ st1,
    access_data g111 st111_empty 8 = Some st1 ∧
    hit_cnt st1 = 0%Z ∧ miss_cnt st1 = 1%Z ∧ evict_cnt st1 = 0%Z ∧
    line_at (cache st1) 0 0 = Some {| valid := true; tag := 2; lru := 0 |} ∧
    ∀ k' i', k' ≠ 0%Z ∨ i' ≠ 0%nat →
      line_at (cache st1) k' i' = line_at (cache st111_empty) k' i'.
Proof.
  apply (first_access_is_cold_miss malloc_always g111 st111_empty 8 2 0
           [empty_line]).
  - reflexivity.
  - repeat split; simpl; lia.
Defined.

(** ** Which tags a set caches *)

Lemma cached_after_write (l : cache_set_t) i t x t' :
  cached t' (<[i := {| valid := true; tag := t; lru := x |}]> l) →
  cached t' l ∨ t' = t.
Proof.
  intros (ln & [j Hj]%list_elem_of_lookup & Hv & Ht).
  apply list_lookup_insert_Some in Hj as [(-> & <- & _)|[Hne Hj]].
  - by right.
  - left. exists ln. split; [by eapply list_elem_of_lookup_2|done].
Qed.

Lemma cached_kept_by_write (l : cache_set_t) i t x t' :
  (∀ li, l !! i = Some li → valid li = true → tag li = t) →
  cached t' l →
  cached t' (<[i := {| valid := true; tag := t; lru := x |}]> l).
Proof.
  intros Hold (ln & [j Hj]%list_elem_of_lookup & Hv & Ht).
  destruct (decide (j = i)) as [->|Hne].
  - exists {| valid := true; tag := t; lru := x |}. split.
    + eapply list_elem_of_lookup_2. apply list_lookup_insert_eq.
      by eapply lookup_lt_Some.
    + split; [done|]. simpl. rewrite <- Ht. symmetry. by eapply Hold.
  - exists ln. split; [|done]. eapply list_elem_of_lookup_2.
    by rewrite list_lookup_insert_ne.
Qed.

(** X4: what an access does to the tags cached in the selected set. The
    accessed tag is cached afterwards; no other tag enters the set; and
    unless the access is a miss on a full set, no tag leaves it (a hit and a
    fill displace nothing). *)
Theorem access_changes_only_its_tag (g : geometry) (st : state)
    (addr t k : Z) (l : cache_set_t) :
  selects g st addr t k l →
  ∃ st' l',
    access_data g st addr = Some st' ∧
    cache st' !! Z.to_nat k = Some l' ∧
    cached t l' ∧
    (∀ t', cached t' l' → cached t' l ∨ t' = t) ∧
    (cached t l ∨ ¬ full l → ∀ t', cached t' l → cached t' l').
Proof.
  intros Hsel.
  destruct (access_data_step g st addr t k l Hsel) as (st' & Hacc & Hstep).
  destruct Hsel as (_ & Hk & Hl & _).
  pose proof (lookup_lt_Some _ _ _ Hl) as Hklt.
  assert (Hnew : ∀ i, (i < length l)%nat →
    cached t (<[i := {| valid := true; tag := t; lru := lru_count st |}]> l)).
  { intros i Hi.
    exists {| valid := true; tag := t; lru := lru_count st |}.
    split; [|done]. eapply list_elem_of_lookup_2.
    by apply list_lookup_insert_eq. }
  destruct Hstep as [i [(li & Hli & Hvi & Hti) _]
                    |i Hnc [(li & Hli & Hvi) _]|i Hnc Hfull (li & Hli & _)];
    eexists;
    exists (<[i := {| valid := true; tag := t; lru := lru_count st |}]> l);
    (split; [done|]); simpl; unfold written;
    (split; [by apply list_lookup_insert_eq|]);
    (split; [apply Hnew; by eapply lookup_lt_Some|]);
    (split; [intros t'; apply cached_after_write|]).
  - intros _ t'. apply cached_kept_by_write. congruence.
  - intros _ t'. apply cached_kept_by_write. congruence.
  - intros [Hc|Hnf]; done.
Qed.

Lemma access_changes_only_its_tag_witness :
  ∃ st' l',
    access_data g111 st111_tag0 0 = Some st' ∧
    cache st' !! Z.to_nat 0 = Some l' ∧
    cached 0 l' ∧
    (∀ t', cached t' l' →
       cached t' [{| valid := true; tag := 0; lru := 0 |}] ∨ t' = 0%Z) ∧
    (cached 0 [{| valid := true; tag := 0; lru := 0 |}] ∨
     ¬ full [{| valid := true; tag := 0; lru := 0 |}] →
     ∀ t', cached t' [{| valid := true; tag := 0; lru := 0 |}] →
       cached t' l').
Proof.
  apply (access_changes_only_its_tag g111 st111_tag0 0 0 0
           [{| valid := true; tag := 0; lru := 0 |}]).
  repeat split; simpl; lia.
Defined.

(** ** What a trace never does *)

(** An access that returns, in terms of the step it takes. *)
Lemma access_data_Some_step g st addr st' :
  shaped g st → access_data g st addr = Some st' →
  ∃ t k l, selects g st addr t k l ∧ access_step st t k l st'.
Proof.
  intros Hsets Hacc.
  destruct (access_data_Some_selects g st addr st' Hsets Hacc)
    as (t & k & l & Hsel).
  destruct (access_data_step g st addr t k l Hsel) as (st'' & Hacc' & Hstep).
  assert (st'' = st') as -> by congruence. eauto.
Qed.

Lemma access_data_shaped g st addr st' :
  shaped g st → access_data g st addr = Some st' →
  shaped g st' ∧ S_ st' = S_ st ∧ length (cache st') = length (cache st).
Proof.
  intros Hsets Hacc.
  destruct (access_data_Some_step g st addr st' Hsets Hacc)
    as (t & k & l & (_ & _ & Hl & _) & Hstep).
  destruct (access_step_shaped g _ _ _ _ _ Hsets Hl Hstep) as [Hsets' Hlen].
  destruct (access_step_cache _ _ _ _ _ Hstep) as (HS & _). done.
Qed.

Lemma access_data_keeps_valid g st addr st' k i ln :
  shaped g st → access_data g st addr = Some st' →
  line_at (cache st) k i = Some ln → valid ln = true →
  ∃ ln', line_at (cache st') k i = Some ln' ∧ valid ln' = true.
Proof.
  intros Hsets Hacc Hln Hv.
  destruct (access_data_Some_step g st addr st' Hsets Hacc)
    as (t & k0 & l & (_ & Hk0 & Hl & _) & Hstep).
  destruct (access_step_lines _ _ _ _ _ Hl Hk0 Hstep)
    as (i0 & _ & Hnew & Hother).
  destruct (decide (k = k0 ∧ i = i0)) as [[-> ->]|Hne].
  - eauto.
  - exists ln. split; [|done]. rewrite Hother; [done|].
    destruct (decide (k = k0)); [right|left]; naive_solver.
Qed.

(** X5: no line is ever invalidated. Over a whole trace, in a cache whose
    sets have [E] lines, a line that is valid before the trace is valid
    after it. *)
Theorem valid_lines_stay_valid (g : geometry) (st st' : state)
    (trace : list trace_record) (k : Z) (i : nat) (ln : cache_line_t) :
  shaped g st →
  replay_trace g st trace = Some st' →
  line_at (cache st) k i = Some ln → valid ln = true →
  ∃ ln', line_at (cache st') k i = Some ln' ∧ valid ln' = true.
Proof.
  rewrite replay_trace_calls. generalize (calls_of trace). clear trace.
  intros addrs. revert st ln.
  induction addrs as [|a rest IH]; intros st ln Hsets Hseq Hln Hv; simpl in *.
  - injection Hseq as <-. eauto.
  - destruct (access_data g st a) as [st1|] eqn:Hacc; [simpl in Hseq|done].
    destruct (access_data_shaped g st a st1 Hsets Hacc) as (Hsets1 & _).
    destruct (access_data_keeps_valid g st a st1 k i ln Hsets Hacc Hln Hv)
      as (ln1 & Hln1 & Hv1).
    by apply (IH st1 ln1).
Qed.

Lemma valid_lines_stay_valid_witness :
  ∃ ln',
    line_at
      (cache {| S_ := 2;
                cache := [[{| valid := true; tag := 2; lru := 2 |}];
                          [empty_line]];
                lru_count := 2; hit_cnt := 2; miss_cnt := 2;
                evict_cnt := 1 |}) 0 0 = Some ln' ∧
    valid ln' = true.
Proof.
  apply (valid_lines_stay_valid g111 st111_tag0 _
           [("M"%char, 0%Z); ("I"%char, 4%Z); ("S"%char, 8%Z)] 0 0
           {| valid := true; tag := 0; lru := 0 |}).
  - repeat constructor.
  - reflexivity.
  - reflexivity.
  - reflexivity.
Defined.

(** X6: the sets are independent. A trace none of whose accesses selects
    set [k'] leaves every line of set [k'] as it was. *)
Theorem other_sets_untouched (g : geometry) (st st' : state)
    (trace : list trace_record) (k' : Z) :
  shaped g st →
  replay_trace g st trace = Some st' →
  (0 ≤ k')%Z →
  Forall (λ a, ∀ t k, decompose g a = Some (t, k) → k ≠ k') (calls_of trace) →
  cache st' !! Z.to_nat k' = cache st !! Z.to_nat k'.
Proof.
  rewrite replay_trace_calls. generalize (calls_of trace). clear trace.
  intros addrs Hsets Hseq Hk' Hother. revert st Hsets Hseq.
  induction Hother as [|a rest Ha _ IH]; intros st Hsets Hseq; simpl in *.
  - by injection Hseq as <-.
  - destruct (access_data g st a) as [st1|] eqn:Hacc; [simpl in Hseq|done].
    destruct (access_data_shaped g st a st1 Hsets Hacc) as (Hsets1 & _).
    rewrite (IH st1 Hsets1 Hseq).
    destruct (access_data_Some_step g st a st1 Hsets Hacc)
      as (t & k & l & (Hdec & Hk & _) & Hstep).
    destruct (access_step_cache _ _ _ _ _ Hstep) as (_ & i & _ & ->).
    unfold written. apply list_lookup_insert_ne.
    specialize (Ha t k Hdec). lia.
Qed.

Lemma other_sets_untouched_witness :
  cache {| S_ := 2;
           cache := [[{| valid := true; tag := 2; lru := 2 |}];
                     [empty_line]];
           lru_count := 2; hit_cnt := 2; miss_cnt := 2;
           evict_cnt := 1 |} !! Z.to_nat 1 =
  cache st111_tag0 !! Z.to_nat 1.
Proof.
  apply (other_sets_untouched g111 st111_tag0 _
           [("M"%char, 0%Z); ("I"%char, 4%Z); ("S"%char, 8%Z)] 1).
  - repeat constructor.
  - reflexivity.
  - lia.
  - change (calls_of [("M"%char, 0%Z); ("I"%char, 4%Z); ("S"%char, 8%Z)])
      with [0; 0; 8]%Z.
    repeat (apply List.Forall_cons;
              [intros t k Hd; vm_compute in Hd; injection Hd as _ <-; lia|]).
    apply List.Forall_nil.
Defined.

(** ** Records and traces *)

Lemma replay_record_ignored g st r :
  data_op r = false → replay_record g st r = Some st.
Proof. destruct r as [op addr]. unfold data_op. simpl. by intros ->. Qed.

(** X7: records whose operation is not [S], [L] or [M] (instruction loads
    among them) have no effect at all: removing them from a trace does not
    change what [replay_trace] returns. *)
Theorem replay_trace_ignores_other_records (g : geometry) (st : state)
    (trace : list trace_record) :
  replay_trace g st trace =
  replay_trace g st (filter (λ r, data_op r = true) trace).
Proof.
  revert st. induction trace as [|r rest IH]; intros st; [done|].
  destruct (data_op r) eqn:Hop.
  - rewrite filter_cons_True by done. simpl.
    destruct (replay_record g st r) as [st1|]; [simpl|done]. apply IH.
  - rewrite filter_cons_False by congruence. simpl.
    rewrite replay_record_ignored by done. simpl. apply IH.
Qed.

(** X9: a Modify record on a tag that is cached is two hits: the hit counter
    moves by two and the miss and eviction counters do not move. (The hit
    counter is far enough below [INT_MAX].) *)
Theorem modify_record_two_hits (g : geometry) (st : state) (addr t k : Z)
    (l : cache_set_t) :
  selects g st addr t k l →
  cached t l →
  (int_min ≤ hit_cnt st ∧ hit_cnt st + 1 < int_max)%Z →
  ∃ st2,
    replay_record g st ("M"%char, addr) = Some st2 ∧
    hit_cnt st2 = (hit_cnt st + 2)%Z ∧
    miss_cnt st2 = miss_cnt st ∧
    evict_cnt st2 = evict_cnt st.
Proof.
  intros Hsel Hc Hhit.
  destruct (access_data_step g st addr t k l Hsel) as (st1 & Hacc1 & Hstep1).
  destruct (access_step_installs g st addr t k l st1 Hsel Hstep1)
    as (l1 & Hsel1 & Hc1).
  destruct (access_data_step g st1 addr t k l1 Hsel1)
    as (st2 & Hacc2 & Hstep2).
  destruct (access_step_hit_inv _ _ _ _ _ Hc Hstep1) as (i & _ & Hst1).
  destruct (access_step_hit_inv _ _ _ _ _ Hc1 Hstep2) as (j & _ & Hst2).
  exists st2. split. { simpl. rewrite Hacc1. simpl. done. }
  rewrite Hst2, Hst1. simpl.
  rewrite (incr_exact (hit_cnt st)) by (unfold is_int; lia).
  rewrite incr_exact by (unfold is_int; lia). split; [lia|done].
Qed.

Lemma modify_record_two_hits_witness :
  ∃ st2,
    replay_record g111 st111_tag0 ("M"%char, 0%Z) = Some st2 ∧
    hit_cnt st2 = (hit_cnt st111_tag0 + 2)%Z ∧
    miss_cnt st2 = miss_cnt st111_tag0 ∧
    evict_cnt st2 = evict_cnt st111_tag0.
Proof.
  apply (modify_record_two_hits g111 st111_tag0 0 0 0
           [{| valid := true; tag := 0; lru := 0 |}]).
  - repeat split; simpl; lia.
  - exists {| valid := true; tag := 0; lru := 0 |}.
    split; [apply list_elem_of_here|by split].
  - unfold int_min, int_max. simpl. lia.
Defined.

(** ** Accounting *)

Lemma sum_list_insert (l : list nat) i x y :
  l !! i = Some y → sum_list (<[i := x]> l) + y = sum_list l + x.
Proof.
  revert i. induction l as [|z l IH]; intros [|i] Hi; simplify_eq/=; [lia|].
  specialize (IH i Hi). lia.
Qed.

Lemma valid_count_insert (l : cache_set_t) i new ln :
  l !! i = Some ln →
  valid_count (<[i := new]> l) + Nat.b2n (valid ln) =
  valid_count l + Nat.b2n (valid new).
Proof.
  intros Hi. unfold valid_count. rewrite list_fmap_insert.
  apply sum_list_insert. by rewrite list_lookup_fmap, Hi.
Qed.

Lemma occupancy_written st k (l : cache_set_t) i new ln :
  cache st !! Z.to_nat k = Some l → l !! i = Some ln →
  occupancy (written st k l i new) + Nat.b2n (valid ln) =
  occupancy (cache st) + Nat.b2n (valid new).
Proof.
  intros Hl Hi. unfold occupancy, written. rewrite list_fmap_insert.
  pose proof (sum_list_insert (valid_count <$> cache st) (Z.to_nat k)
    (valid_count (<[i := new]> l)) (valid_count l)) as Hsum.
  rewrite list_lookup_fmap, Hl in Hsum. specialize (Hsum eq_refl).
  pose proof (valid_count_insert l i new ln Hi). lia.
Qed.

Lemma valid_count_le (l : cache_set_t) : valid_count l ≤ length l.
Proof.
  unfold valid_count. induction l as [|ln l IH]; csimpl; [done|].
  destruct (valid ln); simpl; lia.
Qed.

Lemma occupancy_le g st :
  shaped g st → occupancy (cache st) ≤ length (cache st) * Z.to_nat (E g).
Proof.
  unfold shaped, occupancy. induction 1 as [|l c Hl _ IH]; csimpl; [done|].
  pose proof (valid_count_le l). lia.
Qed.

Lemma stamps_written (P : cache_line_t → Prop) (c : cache_t) k
    (l : cache_set_t) i new :
  Forall (Forall P) c → c !! k = Some l → P new →
  Forall (Forall P) (<[k := <[i := new]> l]> c).
Proof.
  intros Hall Hl Hnew. apply Forall_insert; [done|].
  apply Forall_insert; [|done]. by eapply (Forall_lookup_1 _ _ _ _ Hall).
Qed.

Lemma stamps_mono (c : cache_t) (x y : Z) :
  (x ≤ y)%Z →
  Forall (Forall (λ ln, (0 ≤ lru ln ≤ x)%Z)) c →
  Forall (Forall (λ ln, (0 ≤ lru ln ≤ y)%Z)) c.
Proof.
  intros Hxy Hall. eapply Forall_impl; [done|]. intros l Hl.
  eapply Forall_impl; [done|]. intros ln. simpl. lia.
Qed.

Lemma access_step_accounted n st t k (l : cache_set_t) st' :
  accounted n st → (n < int_max)%Z →
  cache st !! Z.to_nat k = Some l →
  access_step st t k l st' →
  accounted (n + 1) st'.
Proof.
  intros (Hev & Hhit & Hn & Hclk & Hocc & Hstamps) Hmax Hl Hstep.
  assert (Hint : ∀ x, (0 ≤ x ≤ n)%Z → incr x = (x + 1)%Z).
  { intros x Hx. apply incr_exact; unfold is_int, int_min, int_max in *; lia. }
  destruct Hstep as [i [(li & Hli & Hvi & _) _]
                    |i _ [(li & Hli & Hvi) _]|i _ Hfull (li & Hli & _)];
    pose proof (occupancy_written st k l i
      {| valid := true; tag := t; lru := lru_count st |} li Hl Hli) as Hw;
    unfold accounted; simpl; cbn [valid Nat.b2n] in Hw.
  - rewrite Hvi in Hw. cbn [Nat.b2n] in Hw. rewrite !Hint by lia.
    split; [lia|]. split; [lia|]. split; [lia|]. split; [lia|].
    split; [lia|].
    apply stamps_written; [|done|simpl; lia].
    eapply stamps_mono; [|done]. lia.
  - rewrite Hvi in Hw. cbn [Nat.b2n] in Hw. rewrite !Hint by lia.
    split; [lia|]. split; [lia|]. split; [lia|]. split; [done|].
    split; [lia|].
    apply stamps_written; [done|done|simpl; lia].
  - rewrite (Hfull li) in Hw by (by eapply list_elem_of_lookup_2).
    cbn [Nat.b2n] in Hw. rewrite !Hint by lia.
    split; [lia|]. split; [lia|]. split; [lia|]. split; [done|].
    split; [lia|].
    apply stamps_written; [done|done|simpl; lia].
Qed.

Lemma access_seq_accounted g addrs :
  ∀ st st' n,
    shaped g st → accounted n st →
    (n + Z.of_nat (length addrs) ≤ int_max)%Z →
    access_seq g st addrs = Some st' →
    accounted (n + Z.of_nat (length addrs)) st'.
Proof.
  induction addrs as [|a rest IH]; intros st st' n Hsets Hacc Hmax Hseq;
    simpl in *.
  - injection Hseq as <-. by rewrite Z.add_0_r.
  - destruct (access_data g st a) as [st1|] eqn:Ha; [simpl in Hseq|done].
    destruct (access_data_Some_step g st a st1 Hsets Ha)
      as (t & k & l & (_ & _ & Hl & _) & Hstep).
    destruct (access_data_shaped g st a st1 Hsets Ha) as (Hsets1 & _).
    replace (n + Z.of_nat (S (length rest)))%Z
      with ((n + 1) + Z.of_nat (length rest))%Z by lia.
    apply (IH st1); [done| |lia|done].
    apply (access_step_accounted n st t k l); [done|lia|done|done].
Qed.

Lemma init_cache_accounted malloc_ok g st0 :
  init_cache malloc_ok g startup = Some st0 → accounted 0 st0.
Proof.
  intros (_ & Hcache & Hclk & Hh & Hm & He)%init_cache_Some.
  unfold accounted. rewrite Hclk, Hh, Hm, He, Hcache. simpl.
  split; [lia|]. split; [lia|]. split; [lia|]. split; [done|]. split.
  - unfold occupancy. rewrite fmap_replicate.
    assert (valid_count (replicate (Z.to_nat (E g)) empty_line) = 0%nat)
      as ->.
    { unfold valid_count. rewrite fmap_replicate, sum_list_replicate.
      simpl. lia. }
    rewrite sum_list_replicate. lia.
  - apply Forall_replicate, Forall_replicate. simpl. lia.
Qed.

(** The accounting relations hold in every state that a trace of at most
    [INT_MAX] accesses ends in, from the start of the program. *)
Lemma replay_trace_accounted malloc_ok g st0 trace st :
  init_cache malloc_ok g startup = Some st0 →
  replay_trace g st0 trace = Some st →
  (Z.of_nat (length (calls_of trace)) ≤ int_max)%Z →
  shaped g st ∧ length (cache st) = length (cache st0) ∧
  accounted (Z.of_nat (length (calls_of trace))) st.
Proof.
  intros Hinit Hrun Hmax. rewrite replay_trace_calls in Hrun.
  pose proof (init_cache_shaped _ _ _ _ Hinit) as Hsets.
  pose proof (init_cache_accounted _ _ _ Hinit) as Hacc.
  split; [|split].
  - clear Hacc Hmax Hinit. revert st0 Hsets Hrun.
    induction (calls_of trace) as [|a rest IH]; intros st0 Hsets Hrun;
      simpl in *; [by injection Hrun as <-|].
    destruct (access_data g st0 a) as [st1|] eqn:Ha; [simpl in Hrun|done].
    destruct (access_data_shaped g st0 a st1 Hsets Ha) as (Hsets1 & _).
    by apply (IH st1).
  - clear Hacc Hmax Hinit. revert st0 Hsets Hrun.
    induction (calls_of trace) as [|a rest IH]; intros st0 Hsets Hrun;
      simpl in *; [by injection Hrun as <-|].
    destruct (access_data g st0 a) as [st1|] eqn:Ha; [simpl in Hrun|done].
    destruct (access_data_shaped g st0 a st1 Hsets Ha) as (Hsets1 & _ & <-).
    by apply (IH st1).
  - by apply (access_seq_accounted g (calls_of trace) st0 st 0).
Qed.

(** X10: every access is counted once, as a hit or as a miss. In the state
    that a trace ends in, from the start of the program, the hit and miss
    counters add up to the number of [access_data] calls of the trace (one
    per [S] or [L] record, two per [M] record), and the eviction counter is
    at most the miss counter. (The trace makes at most [INT_MAX] calls.) *)
Theorem hits_and_misses_count_accesses malloc_ok (g : geometry)
    (st0 st : state) (trace : list trace_record) :
  init_cache malloc_ok g startup = Some st0 →
  replay_trace g st0 trace = Some st →
  (Z.of_nat (length (calls_of trace)) ≤ int_max)%Z →
  (hit_cnt st + miss_cnt st = Z.of_nat (length (calls_of trace)))%Z ∧
  (0 ≤ hit_cnt st)%Z ∧
  (0 ≤ evict_cnt st ≤ miss_cnt st)%Z.
Proof.
  intros Hinit Hrun Hmax.
  destruct (replay_trace_accounted _ _ _ _ _ Hinit Hrun Hmax)
    as (_ & _ & Hev & Hhit & Hn & _).
  done.
Qed.

Lemma hits_and_misses_count_accesses_witness :
  (1 + 2 = Z.of_nat (length (calls_of
             [("L"%char, 0%Z); ("M"%char, 8%Z); ("I"%char, 4%Z)])))%Z ∧
  (0 ≤ 1)%Z ∧ (0 ≤ 1 ≤ 2)%Z.
Proof.
  apply (hits_and_misses_count_accesses malloc_always g111 st111_empty
           {| S_ := 2;
              cache := [[{| valid := true; tag := 2; lru := 0 |}];
                        [empty_line]];
              lru_count := 1; hit_cnt := 1; miss_cnt := 2; evict_cnt := 1 |}
           [("L"%char, 0%Z); ("M"%char, 8%Z); ("I"%char, 4%Z)]).
  - reflexivity.
  - reflexivity.
  - vm_compute. discriminate.
Defined.

(** X11: the lines in use are the misses that were not evictions. In the
    state that a trace ends in, from the start of the program, the number of
    valid lines of the cache is the miss counter minus the eviction counter,
    and it is at most the number of sets times [E]. *)
Theorem occupancy_is_misses_minus_evictions malloc_ok (g : geometry)
    (st0 st : state) (trace : list trace_record) :
  init_cache malloc_ok g startup = Some st0 →
  replay_trace g st0 trace = Some st →
  (Z.of_nat (length (calls_of trace)) ≤ int_max)%Z →
  Z.of_nat (occupancy (cache st)) = (miss_cnt st - evict_cnt st)%Z ∧
  occupancy (cache st) ≤ length (cache st0) * Z.to_nat (E g).
Proof.
  intros Hinit Hrun Hmax.
  destruct (replay_trace_accounted _ _ _ _ _ Hinit Hrun Hmax)
    as (Hsets & Hlen & _ & _ & _ & _ & Hocc & _).
  split; [done|]. rewrite <- Hlen. by apply occupancy_le.
Qed.

Lemma occupancy_is_misses_minus_evictions_witness :
  Z.of_nat (occupancy [[{| valid := true; tag := 2; lru := 0 |}];
                       [empty_line]]) = (2 - 1)%Z ∧
  occupancy [[{| valid := true; tag := 2; lru := 0 |}]; [empty_line]]
    ≤ length (cache st111_empty) * Z.to_nat (E g111).
Proof.
  apply (occupancy_is_misses_minus_evictions malloc_always g111 st111_empty
           {| S_ := 2;
              cache := [[{| valid := true; tag := 2; lru := 0 |}];
                        [empty_line]];
              lru_count := 1; hit_cnt := 1; miss_cnt := 2; evict_cnt := 1 |}
           [("L"%char, 0%Z); ("M"%char, 8%Z); ("I"%char, 4%Z)]).
  - reflexivity.
  - reflexivity.
  - vm_compute. discriminate.
Defined.

(** X12: the clock counts the hits. In the state that a trace ends in, from
    the start of the program, [lru_count] equals the hit counter, and the
    stamp of every line lies between 0 and [lru_count]. *)
Theorem clock_counts_hits malloc_ok (g : geometry) (st0 st : state)
    (trace : list trace_record) :
  init_cache malloc_ok g startup = Some st0 →
  replay_trace g st0 trace = Some st →
  (Z.of_nat (length (calls_of trace)) ≤ int_max)%Z →
  lru_count st = hit_cnt st ∧
  ∀ k i ln, line_at (cache st) k i = Some ln →
    (0 ≤ lru ln ≤ lru_count st)%Z.
Proof.
  intros Hinit Hrun Hmax.
  destruct (replay_trace_accounted _ _ _ _ _ Hinit Hrun Hmax)
    as (_ & _ & _ & _ & _ & Hclk & _ & Hstamps).
  split; [done|]. intros k i ln Hln. unfold line_at in Hln.
  destruct (k <? 0)%Z; [done|].
  destruct (cache st !! Z.to_nat k) as [l|] eqn:Hl; [simpl in Hln|done].
  pose proof (Forall_lookup_1 _ _ _ _ Hstamps Hl) as Hset.
  apply (Forall_lookup_1 _ _ _ _ Hset Hln).
Qed.

Lemma clock_counts_hits_witness :
  1%Z = 1%Z ∧
  ∀ k i ln,
    line_at [[{| valid := true; tag := 2; lru := 0 |}]; [empty_line]] k i
      = Some ln →
    (0 ≤ lru ln ≤ 1)%Z.
Proof.
  apply (clock_counts_hits malloc_always g111 st111_empty
           {| S_ := 2;
              cache := [[{| valid := true; tag := 2; lru := 0 |}];
                        [empty_line]];
              lru_count := 1; hit_cnt := 1; miss_cnt := 2; evict_cnt := 1 |}
           [("L"%char, 0%Z); ("M"%char, 8%Z); ("I"%char, 4%Z)]).
  - reflexivity.
  - reflexivity.
  - vm_compute. discriminate.
Defined.

(** ** The end of the run *)

Lemma free_sets_total (c : cache_t) i n :
  i + n ≤ length c → is_Some (free_sets c i n).
Proof.
  revert c i. induction n as [|n IH]; intros c i Hlen; simpl; [eauto|].
  destruct (lookup_lt_is_Some_2 c i ltac:(lia)) as [l ->]. simpl.
  apply IH. rewrite length_insert. lia.
Qed.

Lemma access_data_null g st addr :
  cache st = [] → access_data g st addr = None.
Proof.
  intros Hnull. unfold access_data.
  destruct (decompose g addr) as [[t k]|]; [simpl|done].
  assert (Hline : ∀ i, line_at (cache st) k i = None).
  { intros i. unfold line_at. rewrite Hnull. by destruct (k <? 0)%Z. }
  destruct (Z.to_nat (E g)) as [|n]; simpl.
  - unfold update_line. by rewrite Hline.
  - by rewrite Hline.
Qed.

Lemma access_seq_frame g addrs :
  ∀ st st',
    shaped g st → access_seq g st addrs = Some st' →
    shaped g st' ∧ S_ st' = S_ st ∧ length (cache st') = length (cache st).
Proof.
  induction addrs as [|a rest IH]; intros st st' Hsets Hseq; simpl in *.
  - by injection Hseq as <-.
  - destruct (access_data g st a) as [st1|] eqn:Ha; [simpl in Hseq|done].
    destruct (access_data_shaped g st a st1 Hsets Ha) as (Hsets1 & <- & <-).
    by apply IH.
Qed.

Lemma free_cache_frame malloc_ok g st st0 st1 addrs :
  init_cache malloc_ok g st = Some st0 →
  access_seq g st0 addrs = Some st1 →
  free_cache st1 =
    Some {| S_ := S_ st1; cache := [];
            lru_count := lru_count st1;
            hit_cnt := hit_cnt st1;
            miss_cnt := miss_cnt st1;
            evict_cnt := evict_cnt st1 |}.
Proof.
  intros Hinit Hrun.
  pose proof (init_cache_shaped _ _ _ _ Hinit) as Hsets.
  apply init_cache_Some in Hinit as (HS & Hcache & _).
  destruct (access_seq_frame g _ _ _ Hsets Hrun) as (_ & HS1 & Hlen1).
  unfold free_cache.
  destruct (free_sets_total (cache st1) 0 (Z.to_nat (S_ st1))) as [c ->].
  { rewrite Hlen1, HS1, HS, Hcache, length_replicate. lia. }
  done.
Qed.

(** X13: [free_cache] after a run. In the state that any trace ends in after
    [init_cache], whatever the geometry, [free_cache] reads only allocated
    set pointers and returns; it leaves [cache] null and the three counters
    as they were (so that [main] may print them after it); afterwards every
    [access_data] reads through the null pointer and has no defined
    result. *)
Theorem free_cache_after_run malloc_ok (g : geometry) (st st0 st1 : state)
    (trace : list trace_record) :
  init_cache malloc_ok g st = Some st0 →
  replay_trace g st0 trace = Some st1 →
  ∃ st2,
    free_cache st1 = Some st2 ∧
    cache st2 = [] ∧
    hit_cnt st2 = hit_cnt st1 ∧
    miss_cnt st2 = miss_cnt st1 ∧
    evict_cnt st2 = evict_cnt st1 ∧
    ∀ addr, access_data g st2 addr = None.
Proof.
  intros Hinit Hrun. rewrite replay_trace_calls in Hrun.
  rewrite (free_cache_frame _ _ _ _ _ _ Hinit Hrun).
  eexists. split; [done|]. simpl. repeat (split; [done|]).
  intros addr. by apply access_data_null.
Qed.

Lemma free_cache_after_run_witness :
  ∃ st2,
    free_cache st111_tag0 = Some st2 ∧
    cache st2 = [] ∧
    hit_cnt st2 = hit_cnt st111_tag0 ∧
    miss_cnt st2 = miss_cnt st111_tag0 ∧
    evict_cnt st2 = evict_cnt st111_tag0 ∧
    ∀ addr, access_data g111 st2 addr = None.
Proof.
  apply (free_cache_after_run malloc_always g111 startup st111_empty
           st111_tag0 [("L"%char, 0%Z)]).
  - reflexivity.
  - reflexivity.
Defined.

(** X14: the summary of a run. For a valid geometry and a trace file whose
    addresses are 64-bit values and that makes at most [INT_MAX] accesses,
    [main] never reaches an undefined operation: either an allocation fails
    and it exits with status 0, or it hands [print_summary] the counters of
    the state the trace ends in (freeing the cache first does not change
    them), and these satisfy: hits plus misses is the number of accesses and
    evictions are at most misses. *)
Theorem main_summary malloc_ok (g : geometry) (trace : list trace_record) :
  valid_geometry g →
  Forall (λ r : trace_record, is_addr r.2) trace →
  (Z.of_nat (length (calls_of trace)) ≤ int_max)%Z →
  (init_cache malloc_ok g startup = None ∧
   main malloc_ok g (Some (Some trace)) = Exit 0) ∨
  (∃ st0 st,
     init_cache malloc_ok g startup = Some st0 ∧
     replay_trace g st0 trace = Some st ∧
     main malloc_ok g (Some (Some trace)) =
       Summary (hit_cnt st) (miss_cnt st) (evict_cnt st) ∧
     (hit_cnt st + miss_cnt st = Z.of_nat (length (calls_of trace)))%Z ∧
     (0 ≤ hit_cnt st)%Z ∧
     (0 ≤ evict_cnt st ≤ miss_cnt st)%Z).
Proof.
  intros Hg Htrace Hmax. unfold main.
  assert (Hargs : (s g =? 0)%Z || (E g =? 0)%Z || (b g =? 0)%Z = false).
  { destruct Hg as (Hs & HE & Hb & _).
    rewrite !orb_false_iff, !Z.eqb_neq. lia. }
  rewrite Hargs. simpl.
  destruct (init_cache malloc_ok g startup) as [st0|] eqn:Hinit;
    [right|by left].
  assert (Hwf0 : well_formed g st0).
  { apply (init_cache_well_formed malloc_ok g startup);
      [destruct Hg; lia|done]. }
  assert (Hrun : is_Some (replay_trace g st0 trace)).
  { rewrite replay_trace_calls.
    destruct (access_seq_valid g st0 (calls_of trace) Hg Hwf0)
      as (st & -> & _); [by apply calls_of_addrs|done]. }
  destruct Hrun as [st Hrun]. rewrite Hrun.
  rewrite replay_trace_calls in Hrun.
  rewrite (free_cache_frame _ _ _ _ _ _ Hinit Hrun). simpl.
  rewrite <- replay_trace_calls in Hrun.
  destruct (replay_trace_accounted _ _ _ _ _ Hinit Hrun Hmax)
    as (_ & _ & Hev & Hhit & Hn & _).
  exists st0, st. done.
Qed.

Lemma main_summary_witness :
  (init_cache malloc_always g111 startup = None ∧
   main malloc_always g111
     (Some (Some [("L"%char, 0%Z); ("L"%char, 8%Z); ("L"%char, 0%Z)]))
     = Exit 0) ∨
  (∃ st0 st,
     init_cache malloc_always g111 startup = Some st0 ∧
     replay_trace g111 st0
       [("L"%char, 0%Z); ("L"%char, 8%Z); ("L"%char, 0%Z)] = Some st ∧
     main malloc_always g111
       (Some (Some [("L"%char, 0%Z); ("L"%char, 8%Z); ("L"%char, 0%Z)]))
       = Summary (hit_cnt st) (miss_cnt st) (evict_cnt st) ∧
     (hit_cnt st + miss_cnt st =
        Z.of_nat (length (calls_of
          [("L"%char, 0%Z); ("L"%char, 8%Z); ("L"%char, 0%Z)])))%Z ∧
     (0 ≤ hit_cnt st)%Z ∧
     (0 ≤ evict_cnt st ≤ miss_cnt st)%Z).
Proof.
  apply (main_summary malloc_always g111
           [("L"%char, 0%Z); ("L"%char, 8%Z); ("L"%char, 0%Z)]).
  - apply g111_valid.
  - repeat (apply List.Forall_cons; [unfold is_addr; simpl; lia|]).
    apply List.Forall_nil.
  - vm_compute. discriminate.
Defined.


(** ** Repeated accesses *)

Lemma access_data_hit_step g st addr t k (l : cache_set_t) :
  selects g st addr t k l → cached t l →
  ∃ st' l',
    access_data g st addr = Some st' ∧
    selects g st' addr t k l' ∧
    (∀ t', cached t' l' ↔ cached t' l) ∧
    hit_cnt st' = incr (hit_cnt st) ∧
    miss_cnt st' = miss_cnt st ∧ evict_cnt st' = evict_cnt st.
Proof.
  intros Hsel Hc.
  destruct (access_data_step g st addr t k l Hsel) as (st' & Hacc & Hstep).
  destruct (access_step_hit_inv _ _ _ _ _ Hc Hstep)
    as (i & [(li & Hli & Hvi & Hti) _] & Hst').
  destruct Hsel as (Hdec & Hk & Hl & Hlen & HE).
  exists st', (<[i := {| valid := true; tag := t; lru := lru_count st |}]> l).
  split; [done|]. rewrite Hst'. simpl. split; [|split; [|done]].
  - split; [done|]. split; [done|]. split; [|by rewrite length_insert].
    unfold written. apply list_lookup_insert_eq. by eapply lookup_lt_Some.
  - intros t'. split.
    + intros [?| ->]%cached_after_write; done.
    + apply cached_kept_by_write. congruence.
Qed.

(** X16: repeated accesses to a resident tag produce only hits. If the tag
    of an address is cached in the set it selects, [n] accesses in a row to
    that address all return, move the hit counter by [n], leave the miss and
    eviction counters alone and leave the set with the same cached tags.
    (The hit counter has room for [n] increments below [INT_MAX].) *)
Theorem repeated_access_only_hits (g : geometry) (st : state)
    (addr t k : Z) (l : cache_set_t) (n : nat) :
  selects g st addr t k l →
  cached t l →
  (int_min ≤ hit_cnt st ∧ hit_cnt st + Z.of_nat n ≤ int_max)%Z →
  ∃ st' l',
    access_seq g st (replicate n addr) = Some st' ∧
    hit_cnt st' = (hit_cnt st + Z.of_nat n)%Z ∧
    miss_cnt st' = miss_cnt st ∧
    evict_cnt st' = evict_cnt st ∧
    selects g st' addr t k l' ∧
    ∀ t', cached t' l' ↔ cached t' l.
Proof.
  revert st l. induction n as [|n IH]; intros st l Hsel Hc Hroom; simpl.
  - exists st, l. rewrite Z.add_0_r. done.
  - destruct (access_data_hit_step g st addr t k l Hsel Hc)
      as (st1 & l1 & -> & Hsel1 & Htags1 & Hh1 & Hm1 & He1). simpl.
    rewrite incr_exact in Hh1 by (unfold is_int; lia).
    destruct (IH st1 l1 Hsel1) as (st' & l' & Hseq & Hh & Hm & He & Hsel' & Htags).
    { by apply Htags1. }
    { lia. }
    exists st', l'. split; [done|]. split; [lia|].
    split; [congruence|]. split; [congruence|]. split; [done|].
    intros t'. by rewrite Htags, Htags1.
Qed.

Lemma repeated_access_only_hits_witness :
  ∃ st' l',
    access_seq g111 st111_tag0 (replicate 3 0%Z) = Some st' ∧
    hit_cnt st' = (hit_cnt st111_tag0 + Z.of_nat 3)%Z ∧
    miss_cnt st' = miss_cnt st111_tag0 ∧
    evict_cnt st' = evict_cnt st111_tag0 ∧
    selects g111 st' 0 0 0 l' ∧
    ∀ t', cached t' l' ↔
          cached t' [{| valid := true; tag := 0; lru := 0 |}].
Proof.
  apply (repeated_access_only_hits g111 st111_tag0 0 0 0
           [{| valid := true; tag := 0; lru := 0 |}] 3).
  - repeat split; simpl; lia.
  - exists {| valid := true; tag := 0; lru := 0 |}.
    split; [apply list_elem_of_here|by split].
  - unfold int_min, int_max. simpl. lia.
Defined.
